(** * LuaToMermaid: the AST-to-flowchart traversal of [ltm.js]

    A shallow embedding of the two source files of the repository,
    [src/ltm.js] (module [Ltm]) and its earlier variant
    [src/unnamed/part_000] (module [Part000]), and the properties of the
    node/edge graph they build. *)

From Stdlib Require Import String Ascii Arith NArith Bool Lia List.
From Stdlib Require Import DecimalString DecimalNat Relations Wellfounded FinFun.
Import ListNotations.

(** ** JavaScript strings and values *)

(** A JavaScript string is a sequence of UTF-16 code units. *)
Definition jsstring := list N.

(** A source-code string literal (ASCII) as a JavaScript string. *)
Definition js (s : string) : jsstring :=
  map N_of_ascii (list_ascii_of_string s).

Fixpoint jsstring_eqb (a b : jsstring) : bool :=
  match a, b with
  | [], [] => true
  | x :: a', y :: b' => N.eqb x y && jsstring_eqb a' b'
  | _, _ => false
  end.

(** The values an AST is made of.  An object is its property lookup:
    [get k] is [obj.k], and [VUndefined] when the property is absent.
    Numbers and booleans occur in parser output only under properties the
    program never reads ([value], [isLocal], ...), so they are left out. *)
#[local] Unset Elimination Schemes.
Inductive value : Type :=
| VUndefined
| VNull
| VString (s : jsstring)
| VArray (items : list value)
| VObject (get : string -> value).
#[local] Set Elimination Schemes.

(** An object literal [{ k1: v1, k2: v2, ... }]. *)
Fixpoint lookup (fields : list (string * value)) (k : string) : value :=
  match fields with
  | [] => VUndefined
  | (k', v) :: rest => if String.eqb k k' then v else lookup rest k
  end.

Definition obj (fields : list (string * value)) : value :=
  VObject (lookup fields).

(** [Array.prototype.join]: [undefined] and [null] elements print as the
    empty string. *)
Fixpoint joinStrings (sep : jsstring) (l : list jsstring) : jsstring :=
  match l with
  | [] => []
  | [x] => x
  | x :: rest => x ++ sep ++ joinStrings sep rest
  end.

(** [ToString], as a template literal applies it to [${...}]; [None] when
    it throws.  An array prints its elements joined by commas.  An object
    without a [toString] property of its own is printed by
    [Object.prototype.toString]; one that has such a property makes the
    conversion throw a [TypeError], since no value of an AST is a function
    and [Object.prototype.valueOf] returns the object itself. *)
Fixpoint toString (v : value) : option jsstring :=
  match v with
  | VUndefined => Some (js "undefined")
  | VNull => Some (js "null")
  | VString s => Some s
  | VArray items =>
      option_map (joinStrings (js ","))
        ((fix elements (l : list value) : option (list jsstring) :=
            match l with
            | [] => Some []
            | x :: rest =>
                match match x with
                      | VUndefined | VNull => Some []
                      | _ => toString x
                      end with
                | Some s =>
                    match elements rest with
                    | Some ss => Some (s :: ss)
                    | None => None
                    end
                | None => None
                end
            end) items)
  | VObject get =>
      match get "toString"%string with
      | VUndefined => Some (js "[object Object]")
      | _ => None
      end
  end.

(** The text [Array.prototype.join] gives an element. *)
Definition elementString (x : value) : option jsstring :=
  match x with
  | VUndefined | VNull => Some []
  | _ => toString x
  end.

Fixpoint elementStrings (items : list value) : option (list jsstring) :=
  match items with
  | [] => Some []
  | x :: rest =>
      match elementString x with
      | Some s =>
          match elementStrings rest with
          | Some ss => Some (s :: ss)
          | None => None
          end
      | None => None
      end
  end.

(** [items.join(sep)], [None] when an element's conversion throws. *)
Definition join (sep : jsstring) (items : list value) : option jsstring :=
  option_map (joinStrings sep) (elementStrings items).

(** Truthiness, as [if (v)] and [v ? a : b] test it. *)
Definition truthy (v : value) : bool :=
  match v with
  | VUndefined | VNull => false
  | VString [] => false
  | _ => true
  end.

(** [v === "literal"] *)
Definition strictEq (v : value) (lit : string) : bool :=
  match v with
  | VString s => jsstring_eqb s (js lit)
  | _ => false
  end.

(** Number-to-string conversion of a non-negative integer counter. *)
Definition numToString (n : nat) : jsstring :=
  js (NilEmpty.string_of_uint (Nat.to_uint n)).

(** ** sanitizeLabel

    [label.replace(/[^a-zA-Z0-9_ ]/g, "_")]: without the [u] flag the
    class is matched against each code unit. *)
Definition in_class (c : N) : bool :=
  (((97 <=? c) && (c <=? 122))      (* a-z *)
  || ((65 <=? c) && (c <=? 90))    (* A-Z *)
  || ((48 <=? c) && (c <=? 57))    (* 0-9 *)
  || (c =? 95)                     (* _ *)
  || (c =? 32))%N.                 (* space *)

Definition sanitizeLabel (label : jsstring) : jsstring :=
  map (fun c => if in_class c then c else 95%N) label.

(** ** The traversal state and its monad *)

Record DiagramNode := mkNode { id : jsstring; label : jsstring }.

(** [to] is [null] when the pushed [clauseNodeId] is; [condition] is absent
    on the edges pushed without one. *)
Record DiagramEdge := mkEdge {
  from : jsstring;
  to : option jsstring;
  condition : option jsstring
}.

(** The three [let] variables of one [generateMermaid] call. *)
Record state := mkState {
  nodes : list DiagramNode;
  edges : list DiagramEdge;
  nodeId : nat
}.

Inductive error := TypeError.

Inductive result (A : Type) :=
| Ok (a : A)
| Throw (e : error).
Arguments Ok {A} a.
Arguments Throw {A} e.

(** A computation reads and updates the state, or throws. *)
Definition M (A : Type) := state -> result (A * state).

Definition ret {A} (a : A) : M A := fun st => Ok (a, st).
Definition throw {A} (e : error) : M A := fun _ => Throw e.
Definition bind {A B} (m : M A) (f : A -> M B) : M B :=
  fun st => match m st with
            | Ok (a, st') => f a st'
            | Throw e => Throw e
            end.

Declare Scope js_scope.
Delimit Scope js_scope with js.
Notation "x <- m ;; k" := (bind m (fun x => k))
  (at level 61, m at next level, right associativity) : js_scope.
Notation "m ;; k" := (bind m (fun _ => k))
  (at level 61, right associativity) : js_scope.
Local Open Scope js_scope.

(** [v.k] for the data properties the program reads ([type], [body],
    [clauses], [condition], [raw], [name], ...): a [TypeError] ([None]) on
    [undefined] and [null]; none of them is defined on strings or arrays. *)
Definition getProp (v : value) (k : string) : option value :=
  match v with
  | VUndefined | VNull => None
  | VString _ | VArray _ => Some VUndefined
  | VObject get => Some (get k)
  end.

(** [v[0]] *)
Definition getIndex0 (v : value) : option value :=
  match v with
  | VUndefined | VNull => None
  | VString [] => Some VUndefined
  | VString (c :: _) => Some (VString [c])
  | VArray [] => Some VUndefined
  | VArray (x :: _) => Some x
  | VObject get => Some (get "0"%string)
  end.

Definition orThrow {A} (o : option A) : M A :=
  match o with
  | Some a => ret a
  | None => throw TypeError
  end.

Definition prop (v : value) (k : string) : M value := orThrow (getProp v k).

Definition index0 (v : value) : M value := orThrow (getIndex0 v).

(** The text of [${v}] in a template literal, and of [items.join(sep)]. *)
Definition interpolate (v : value) : M jsstring := orThrow (toString v).

Definition joined (sep : jsstring) (items : list value) : M jsstring :=
  orThrow (join sep items).

(** [v.map(f)]: only arrays have [map]. *)
Fixpoint mapM {A B} (f : A -> M B) (l : list A) : M (list B) :=
  match l with
  | [] => ret []
  | x :: rest => y <- f x ;; ys <- mapM f rest ;; ret (y :: ys)
  end.

Definition arrayMap (v : value) (f : value -> M value) : M (list value) :=
  match v with
  | VArray items => mapM f items
  | _ => throw TypeError
  end.

(** [items.forEach((x, index) => f x index)], started at [index]. *)
Definition forEach {A} (f : A -> nat -> M unit) : list A -> nat -> M unit :=
  fix go (items : list A) (index : nat) : M unit :=
    match items with
    | [] => ret tt
    | x :: rest => f x index ;; go rest (index + 1)
    end.

(** [edges.push(e)] *)
Definition pushEdge (e : DiagramEdge) : M unit :=
  fun st => Ok (tt, mkState (nodes st) (edges st ++ [e]) (nodeId st)).

(** [createNode(label)]: the id is taken and the counter incremented
    first; [sanitizeLabel] then calls [label.replace], which only a string
    has. *)
Definition createNode (label : value) : M jsstring :=
  fun st =>
    let id := js "node" ++ numToString (nodeId st) in
    match label with
    | VString s =>
        Ok (id, mkState (nodes st ++ [mkNode id (sanitizeLabel s)])
                        (edges st) (nodeId st + 1))
    | _ => Throw TypeError
    end.

(** The statement repeated after each [createNode]:
    [if (parentNodeId) edges.push({ from: parentNodeId, to: currentNodeId })].
    [null] and the empty string are falsy. *)
Definition linkParent (parentNodeId : option jsstring)
    (currentNodeId : jsstring) : M unit :=
  match parentNodeId with
  | Some (c :: p) => pushEdge (mkEdge (c :: p) (Some currentNodeId) None)
  | _ => ret tt
  end.

(** The state a [generateMermaid] call starts from:
    [let nodes = []; let edges = []; let nodeId = 0]. *)
Definition initialState : state := mkState [] [] 0.

(** The line feed of ["\n"]. *)
Definition newline : jsstring := [10%N].

(** The two [forEach] loops that print the node and edge lists.  An edge's
    [condition] is not printed; a [null] target prints as [null]. *)
Definition renderNode (node : DiagramNode) : jsstring :=
  js "  " ++ id node ++ js "[" ++ label node ++ js "];" ++ newline.

Definition renderEdge (edge : DiagramEdge) : jsstring :=
  js "  " ++ from edge ++ js "-->"
  ++ match to edge with Some t => t | None => js "null" end
  ++ js ";" ++ newline.

Definition renderBody (st : state) : jsstring :=
  List.concat (map renderNode (nodes st))
  ++ List.concat (map renderEdge (edges st)).

(** What the process does, in order. *)
Inductive event :=
| WriteFile (path content : jsstring)
| ConsoleLog (message : jsstring)
| ConsoleError (message : jsstring)
| Exit (code : nat)
| Uncaught.

(** ** [src/ltm.js] *)

Module Ltm.

(** [traverseNode(node, parentNodeId = null)].  [node.type] throws on
    [undefined] and [null] and is [undefined] on a string and on an array,
    which sends them to the [default] case; on an object the [switch]
    takes the first [case] equal to [node.type], in the order of the
    source. *)
Fixpoint traverseNode (node : value) (parentNodeId : option jsstring)
    {struct node} : M (option jsstring) :=
  match node with
  | VUndefined | VNull => throw TypeError
  | VString _ =>
      (* default, not an array: createNode(node.type), node.type undefined *)
      defaultNode <- createNode VUndefined ;;
      linkParent parentNodeId defaultNode ;;
      ret (Some defaultNode)
  | VArray items =>
      (* default: Array.isArray(node) *)
      forEach (fun childNode _ =>
                 traverseNode childNode parentNodeId ;; ret tt) items 0 ;;
      ret None
  | VObject get =>
      let type := get "type"%string in
      if strictEq type "Chunk" then
        match get "body"%string with
        | VArray body =>
            forEach (fun statement _ =>
                       traverseNode statement parentNodeId ;; ret tt) body 0
        | _ => throw TypeError
        end ;;
        ret None
      else if strictEq type "IfStatement" then
        clause0 <- index0 (get "clauses"%string) ;;
        condition0 <- prop clause0 "condition" ;;
        raw <- prop condition0 "raw" ;;
        text <- interpolate raw ;;
        ifConditionNode <- createNode (VString (js "if " ++ text)) ;;
        linkParent parentNodeId ifConditionNode ;;
        match get "clauses"%string with
        | VArray clauses =>
            forEach (fun clause index =>
                       clauseNodeId <-
                         match clause with
                         | VObject clause_get =>
                             traverseNode (clause_get "body"%string)
                                          (Some ifConditionNode)
                         | _ => throw TypeError
                         end ;;
                       if 0 <? index then
                         pushEdge (mkEdge ifConditionNode clauseNodeId
                                     (Some (if index =? 1 then js "No"
                                            else js "Else")))
                       else ret tt) clauses 0
        | _ => throw TypeError
        end ;;
        ret (Some ifConditionNode)
      else if strictEq type "WhileStatement" then
        raw <- prop (get "condition"%string) "raw" ;;
        text <- interpolate raw ;;
        whileNode <- createNode (VString (js "while " ++ text)) ;;
        linkParent parentNodeId whileNode ;;
        traverseNode (get "body"%string) (Some whileNode) ;;
        ret (Some whileNode)
      else if strictEq type "RepeatStatement" then
        repeatNode <- createNode (VString (js "repeat")) ;;
        linkParent parentNodeId repeatNode ;;
        traverseNode (get "body"%string) (Some repeatNode) ;;
        raw <- prop (get "condition"%string) "raw" ;;
        text <- interpolate raw ;;
        untilNode <- createNode (VString (js "until " ++ text)) ;;
        pushEdge (mkEdge repeatNode (Some untilNode) None) ;;
        ret (Some repeatNode)
      else if strictEq type "ForNumericStatement" then
        name <- prop (get "variable"%string) "name" ;;
        nameText <- interpolate name ;;
        start <- prop (get "start"%string) "raw" ;;
        startText <- interpolate start ;;
        end_ <- prop (get "end"%string) "raw" ;;
        endText <- interpolate end_ ;;
        step <- (if truthy (get "step"%string)
                 then raw <- prop (get "step"%string) "raw" ;;
                      text <- interpolate raw ;;
                      ret (js ", " ++ text)
                 else ret (js "")) ;;
        forNumericNode <-
          createNode (VString (js "for " ++ nameText ++ js " = "
                               ++ startText ++ js ", " ++ endText
                               ++ step)) ;;
        linkParent parentNodeId forNumericNode ;;
        traverseNode (get "body"%string) (Some forNumericNode) ;;
        ret (Some forNumericNode)
      else if strictEq type "ForGenericStatement" then
        names <- arrayMap (get "variables"%string) (fun v => prop v "name") ;;
        namesText <- joined (js ", ") names ;;
        raws <- arrayMap (get "iterators"%string) (fun i => prop i "raw") ;;
        rawsText <- joined (js ", ") raws ;;
        forGenericNode <-
          createNode (VString (js "for " ++ namesText ++ js " in "
                               ++ rawsText)) ;;
        linkParent parentNodeId forGenericNode ;;
        traverseNode (get "body"%string) (Some forGenericNode) ;;
        ret (Some forGenericNode)
      else if strictEq type "FunctionDeclaration" then
        names <- arrayMap (get "parameters"%string)
                          (fun param => prop param "name") ;;
        args <- joined (js ", ") names ;;
        name <- prop (get "identifier"%string) "name" ;;
        nameText <- interpolate name ;;
        funcNode <-
          createNode (VString (js "function " ++ nameText ++ js "("
                               ++ args ++ js ")")) ;;
        linkParent parentNodeId funcNode ;;
        traverseNode (get "body"%string) (Some funcNode) ;;
        ret (Some funcNode)
      else if strictEq type "ReturnStatement" then
        raws <- arrayMap (get "arguments"%string) (fun arg => prop arg "raw") ;;
        rawsText <- joined (js ", ") raws ;;
        returnNode <- createNode (VString (js "return " ++ rawsText)) ;;
        linkParent parentNodeId returnNode ;;
        ret (Some returnNode)
      else if strictEq type "CallStatement" then
        base <- prop (get "expression"%string) "base" ;;
        name <- prop base "name" ;;
        nameText <- interpolate name ;;
        arguments <- prop (get "expression"%string) "arguments" ;;
        raws <- arrayMap arguments (fun arg => prop arg "raw") ;;
        rawsText <- joined (js ", ") raws ;;
        callNode <-
          createNode (VString (js "call " ++ nameText ++ js "("
                               ++ rawsText ++ js ")")) ;;
        linkParent parentNodeId callNode ;;
        ret (Some callNode)
      else if strictEq type "AssignmentStatement" then
        names <- arrayMap (get "variables"%string) (fun v => prop v "name") ;;
        namesText <- joined (js ", ") names ;;
        raws <- arrayMap (get "init"%string) (fun i => prop i "raw") ;;
        rawsText <- joined (js ", ") raws ;;
        assignNode <-
          createNode (VString (namesText ++ js " = " ++ rawsText)) ;;
        linkParent parentNodeId assignNode ;;
        ret (Some assignNode)
      else if strictEq type "TableConstructorExpression" then
        entries <- arrayMap (get "fields"%string)
                     (fun field =>
                        fieldKey <- prop field "key" ;;
                        keyRaw <- prop fieldKey "raw" ;;
                        keyText <- interpolate keyRaw ;;
                        fieldValue <- prop field "value" ;;
                        valueRaw <- prop fieldValue "raw" ;;
                        valueText <- interpolate valueRaw ;;
                        ret (VString (keyText ++ js " = " ++ valueText))) ;;
        entriesText <- joined (js ", ") entries ;;
        tableNode <-
          createNode (VString (js "table { " ++ entriesText ++ js " }")) ;;
        linkParent parentNodeId tableNode ;;
        ret (Some tableNode)
      else if strictEq type "LocalStatement" then
        names <- arrayMap (get "variables"%string) (fun v => prop v "name") ;;
        namesText <- joined (js ", ") names ;;
        raws <- arrayMap (get "init"%string) (fun i => prop i "raw") ;;
        rawsText <- joined (js ", ") raws ;;
        localNode <-
          createNode (VString (js "local " ++ namesText ++ js " = "
                               ++ rawsText)) ;;
        linkParent parentNodeId localNode ;;
        ret (Some localNode)
      else if strictEq type "RepeatStatement" then
        (* the second case "RepeatStatement" of the switch *)
        raw <- prop (get "condition"%string) "raw" ;;
        text <- interpolate raw ;;
        repeatConditionNode <- createNode (VString (js "until " ++ text)) ;;
        linkParent parentNodeId repeatConditionNode ;;
        traverseNode (get "body"%string) (Some repeatConditionNode) ;;
        ret (Some repeatConditionNode)
      else
        (* default, not an array *)
        defaultNode <- createNode type ;;
        linkParent parentNodeId defaultNode ;;
        ret (Some defaultNode)
  end.

(** [generateMermaid(ast)]: the state is created by the call. *)
Definition generateMermaid (ast : value) : result jsstring :=
  match traverseNode ast None initialState with
  | Ok (_, st) => Ok (js "graph TD;" ++ newline ++ renderBody st)
  | Throw e => Throw e
  end.

Section Main.

(** [parseLuaFile(filePath)] reads the file and calls the external parser;
    [None] when either throws. *)
Variable parseLuaFile : jsstring -> option value.

(** [main()] with [inputFilePath = process.argv[2]]; [fs.writeFileSync] is
    taken to succeed. *)
Definition main (inputFilePath : option jsstring) : list event :=
  let outputFilePath := js "output.mermaid" in
  match inputFilePath with
  | None | Some [] =>
      [ConsoleError (js "Please provide a Lua file path as an argument.");
       Exit 1]
  | Some path =>
      match parseLuaFile path with
      | None => [Uncaught]
      | Some ast =>
          match generateMermaid ast with
          | Throw _ => [Uncaught]
          | Ok mermaidCode =>
              [WriteFile outputFilePath mermaidCode;
               WriteFile (outputFilePath ++ js ".md")
                 (js "```mermaid" ++ newline ++ mermaidCode ++ newline
                  ++ js "```");
               ConsoleLog (js "Mermaid diagram saved to " ++ outputFilePath)]
          end
      end
  end.

End Main.

End Ltm.

(** ** [src/unnamed/part_000], the earlier variant of the same program *)

Module Part000.

Fixpoint traverseNode (node : value) (parentNodeId : option jsstring)
    {struct node} : M (option jsstring) :=
  match node with
  | VUndefined | VNull => throw TypeError
  | VString _ =>
      (* default, not an array: createNode(node.type), node.type undefined *)
      defaultNode <- createNode VUndefined ;;
      linkParent parentNodeId defaultNode ;;
      ret (Some defaultNode)
  | VArray items =>
      (* default: Array.isArray(node) *)
      forEach (fun childNode _ =>
                 traverseNode childNode parentNodeId ;; ret tt) items 0 ;;
      ret None
  | VObject get =>
      let type := get "type"%string in
      if strictEq type "Chunk" then
        match get "body"%string with
        | VArray body =>
            forEach (fun statement _ =>
                       traverseNode statement parentNodeId ;; ret tt) body 0
        | _ => throw TypeError
        end ;;
        ret None
      else if strictEq type "IfStatement" then
        clause0 <- index0 (get "clauses"%string) ;;
        condition0 <- prop clause0 "condition" ;;
        raw <- prop condition0 "raw" ;;
        text <- interpolate raw ;;
        conditionNode <- createNode (VString (js "if " ++ text)) ;;
        linkParent parentNodeId conditionNode ;;
        match get "clauses"%string with
        | VArray clauses =>
            forEach (fun clause index =>
                       clauseNodeId <-
                         match clause with
                         | VObject clause_get =>
                             traverseNode (clause_get "body"%string)
                                          (Some conditionNode)
                         | _ => throw TypeError
                         end ;;
                       if 0 <? index then
                         pushEdge (mkEdge conditionNode clauseNodeId
                                     (Some (if index =? 1 then js "No"
                                            else js "Else")))
                       else ret tt) clauses 0
        | _ => throw TypeError
        end ;;
        ret (Some conditionNode)
      else if strictEq type "WhileStatement" then
        raw <- prop (get "condition"%string) "raw" ;;
        text <- interpolate raw ;;
        whileNode <- createNode (VString (js "while " ++ text)) ;;
        linkParent parentNodeId whileNode ;;
        traverseNode (get "body"%string) (Some whileNode) ;;
        ret (Some whileNode)
      else if strictEq type "ForNumericStatement" then
        name <- prop (get "variable"%string) "name" ;;
        nameText <- interpolate name ;;
        forNode <- createNode (VString (js "for " ++ nameText)) ;;
        linkParent parentNodeId forNode ;;
        traverseNode (get "body"%string) (Some forNode) ;;
        ret (Some forNode)
      else if strictEq type "FunctionDeclaration" then
        names <- arrayMap (get "parameters"%string)
                          (fun param => prop param "name") ;;
        args <- joined (js ", ") names ;;
        name <- prop (get "identifier"%string) "name" ;;
        nameText <- interpolate name ;;
        funcNode <-
          createNode (VString (js "function " ++ nameText ++ js "("
                               ++ args ++ js ")")) ;;
        linkParent parentNodeId funcNode ;;
        traverseNode (get "body"%string) (Some funcNode) ;;
        ret (Some funcNode)
      else if strictEq type "ReturnStatement" then
        raws <- arrayMap (get "arguments"%string) (fun arg => prop arg "raw") ;;
        rawsText <- joined (js ", ") raws ;;
        returnNode <- createNode (VString (js "return " ++ rawsText)) ;;
        linkParent parentNodeId returnNode ;;
        ret (Some returnNode)
      else if strictEq type "CallStatement" then
        base <- prop (get "expression"%string) "base" ;;
        name <- prop base "name" ;;
        nameText <- interpolate name ;;
        arguments <- prop (get "expression"%string) "arguments" ;;
        raws <- arrayMap arguments (fun arg => prop arg "raw") ;;
        rawsText <- joined (js ", ") raws ;;
        callNode <-
          createNode (VString (js "call " ++ nameText ++ js "("
                               ++ rawsText ++ js ")")) ;;
        linkParent parentNodeId callNode ;;
        ret (Some callNode)
      else if strictEq type "AssignmentStatement" then
        names <- arrayMap (get "variables"%string) (fun v => prop v "name") ;;
        namesText <- joined (js ", ") names ;;
        raws <- arrayMap (get "init"%string) (fun i => prop i "raw") ;;
        rawsText <- joined (js ", ") raws ;;
        assignNode <-
          createNode (VString (namesText ++ js " = " ++ rawsText)) ;;
        linkParent parentNodeId assignNode ;;
        ret (Some assignNode)
      else
        (* default, not an array *)
        defaultNode <- createNode type ;;
        linkParent parentNodeId defaultNode ;;
        ret (Some defaultNode)
  end.

(** [generateMermaid(ast)]: this variant fences the diagram itself. *)
Definition generateMermaid (ast : value) : result jsstring :=
  match traverseNode ast None initialState with
  | Ok (_, st) =>
      Ok (js "```mermaid" ++ newline ++ js "graph TD;" ++ newline
          ++ renderBody st ++ js "```")
  | Throw e => Throw e
  end.

Section Main.

Variable parseLuaFile : jsstring -> option value.

Definition main (inputFilePath : option jsstring) : list event :=
  let outputFilePath := js "output.mermaid.md" in
  match inputFilePath with
  | None | Some [] =>
      [ConsoleError (js "Please provide a Lua file path as an argument.");
       Exit 1]
  | Some path =>
      match parseLuaFile path with
      | None => [Uncaught]
      | Some ast =>
          match generateMermaid ast with
          | Throw _ => [Uncaught]
          | Ok mermaidCode =>
              [WriteFile outputFilePath mermaidCode;
               ConsoleLog (js "Mermaid diagram saved to " ++ outputFilePath)]
          end
      end
  end.

End Main.

End Part000.

(** ** Node shapes of the external parser, and sample inputs *)

Definition str (s : string) : value := VString (js s).

(** A literal carries its source text in [raw]; an identifier has a [name]
    and no [raw]. *)
Definition numericLiteral (raw : string) : value :=
  obj [("type", str "NumericLiteral"); ("raw", str raw)]%string.

Definition identifier (name : string) : value :=
  obj [("type", str "Identifier"); ("name", str name)]%string.

Definition booleanLiteral (raw : string) : value :=
  obj [("type", str "BooleanLiteral"); ("raw", str raw)]%string.

(** [<name>(<arguments>)] as a statement *)
Definition callStatement (name : string) (arguments : list value) : value :=
  obj [("type", str "CallStatement");
       ("expression",
        obj [("type", str "CallExpression"); ("base", identifier name);
             ("arguments", VArray arguments)])]%string.

Definition returnStatement (arguments : list value) : value :=
  obj [("type", str "ReturnStatement"); ("arguments", VArray arguments)]%string.

Definition chunk (body : list value) : value :=
  obj [("type", str "Chunk"); ("body", VArray body)]%string.

(** [if <condition> then return 1 else return 2 end] *)
Definition ifElseStatement (condition : value) : value :=
  obj [("type", str "IfStatement");
       ("clauses", VArray [
          obj [("type", str "IfClause"); ("condition", condition);
               ("body", VArray [returnStatement [numericLiteral "1"]])];
          obj [("type", str "ElseClause");
               ("body", VArray [returnStatement [numericLiteral "2"]])]])
      ]%string.

(** [if <condition1> then return 1 elseif <condition2> then return 2
    else return 3 end] *)
Definition ifElseifStatement (condition1 condition2 : value) : value :=
  obj [("type", str "IfStatement");
       ("clauses", VArray [
          obj [("type", str "IfClause"); ("condition", condition1);
               ("body", VArray [returnStatement [numericLiteral "1"]])];
          obj [("type", str "ElseifClause"); ("condition", condition2);
               ("body", VArray [returnStatement [numericLiteral "2"]])];
          obj [("type", str "ElseClause");
               ("body", VArray [returnStatement [numericLiteral "3"]])]])
      ]%string.

(** [while <condition> do <body> end] *)
Definition whileStatement (condition : value) (body : list value) : value :=
  obj [("type", str "WhileStatement"); ("condition", condition);
       ("body", VArray body)]%string.

(** [repeat <body> until <condition>] *)
Definition repeatStatement (condition : value) (body : list value) : value :=
  obj [("type", str "RepeatStatement"); ("condition", condition);
       ("body", VArray body)]%string.

(** ** Specification vocabulary *)

(** The id the [n]-th call of [createNode] returns. *)
Definition nodeName (n : nat) : jsstring := js "node" ++ numToString n.

(** The label of the branch edge of clause [index]. *)
Definition branchLabel (index : nat) : jsstring :=
  if index =? 1 then js "No" else js "Else".

(** An edge is dangling in a node list when its source or its target is
    not the id of a listed node. *)
Definition resolved (ns : list DiagramNode) (e : DiagramEdge) : Prop :=
  In (from e) (map id ns) /\
  exists target, to e = Some target /\ In target (map id ns).

(** The node list carries the ids [node0], [node1], ... in order, and the
    counter is the number of nodes. *)
Definition numbered (st : state) : Prop :=
  map id (nodes st) = map nodeName (seq 0 (nodeId st))
  /\ nodeId st = length (nodes st).

(** The edge [linkParent] pushes, as a list. *)
Definition parentLink (parentNodeId : option jsstring)
    (currentNodeId : jsstring) : list DiagramEdge :=
  match parentNodeId with
  | Some (c :: p) => [mkEdge (c :: p) (Some currentNodeId) None]
  | _ => []
  end.

(** The state after [createNode(label)] and the link from the parent. *)
Definition withNode (st : state) (label : jsstring)
    (parentNodeId : option jsstring) : state :=
  mkState (nodes st ++ [mkNode (nodeName (nodeId st)) (sanitizeLabel label)])
          (edges st ++ parentLink parentNodeId (nodeName (nodeId st)))
          (nodeId st + 1).

(** [clauses[0].condition.raw], [None] when reading it throws. *)
Definition firstConditionRaw (clauses : value) : option value :=
  match getIndex0 clauses with
  | Some clause0 =>
      match getProp clause0 "condition" with
      | Some condition0 => getProp condition0 "raw"
      | None => None
      end
  | None => None
  end.

(** The text of [${node.clauses[0].condition.raw}], [None] when reading
    or printing it throws. *)
Definition firstConditionText (clauses : value) : option jsstring :=
  match firstConditionRaw clauses with
  | Some raw => toString raw
  | None => None
  end.

(** [v.k] can be read and is [undefined]: [v] is there and carries no
    [k]. *)
Definition lacks (k : string) (v : value) : Prop :=
  getProp v k = Some VUndefined.



(** Two clauses with the same [body]. *)
Definition sameBody (clause clause' : value) : Prop :=
  match clause, clause' with
  | VObject g, VObject g' => g "body"%string = g' "body"%string
  | VObject _, _ | _, VObject _ => False
  | _, _ => True
  end.

(** The files a run writes, in order, and whether it reached its
    confirmation message. *)
Definition filesWritten (events : list event) : list jsstring :=
  flat_map (fun e => match e with WriteFile path _ => [path] | _ => [] end)
           events.

Definition succeeded (events : list event) : Prop :=
  exists message, In (ConsoleLog message) events.

(** An edge with a [condition], leaving the node [ifNode]. *)
Definition isBranchFrom (ifNode : jsstring) (e : DiagramEdge) : bool :=
  match condition e with
  | Some _ => jsstring_eqb (from e) ifNode
  | None => false
  end.

Section Cases.

Variable traverse : value -> option jsstring -> M (option jsstring).

(** The callback of [node.clauses.forEach((clause, index) => ...)] in the
    [IfStatement] case, over the traversal function it calls, and the
    loop. *)
Definition clauseStep (ifConditionNode : jsstring) (clause : value)
    (index : nat) : M unit :=
  clauseNodeId <-
    match clause with
    | VObject clause_get =>
        traverse (clause_get "body"%string) (Some ifConditionNode)
    | _ => throw TypeError
    end ;;
  if 0 <? index then
    pushEdge (mkEdge ifConditionNode clauseNodeId
                (Some (if index =? 1 then js "No" else js "Else")))
  else ret tt.

Definition ifClauses (ifConditionNode : jsstring)
  : list value -> nat -> M unit :=
  forEach (clauseStep ifConditionNode).

End Cases.

(** Induction on values, through arrays and objects. *)
Fixpoint value_ind (P : value -> Prop)
    (Hundefined : P VUndefined) (Hnull : P VNull)
    (Hstring : forall s, P (VString s))
    (Harray : forall items, Forall P items -> P (VArray items))
    (Hobject : forall get, (forall k, P (get k)) -> P (VObject get))
    (v : value) {struct v} : P v :=
  match v with
  | VUndefined => Hundefined
  | VNull => Hnull
  | VString s => Hstring s
  | VArray items =>
      Harray items
        ((fix all (l : list value) : Forall P l :=
            match l with
            | [] => Forall_nil P
            | x :: rest =>
                Forall_cons x
                  (value_ind P Hundefined Hnull Hstring Harray Hobject x)
                  (all rest)
            end) items)
  | VObject get =>
      Hobject get
        (fun k => value_ind P Hundefined Hnull Hstring Harray Hobject (get k))
  end.

(** [grows k st st']: [st'] is [st] with nodes and edges appended, the new
    nodes carry the next ids in order, and every new edge that has a
    [condition] leaves a node created at or after the [k]-th. *)
Definition branchFrom (k : nat) (e : DiagramEdge) : Prop :=
  condition e <> None -> exists j, k <= j /\ from e = nodeName j.

Definition grows (k : nat) (st st' : state) : Prop :=
  exists ns es,
    nodes st' = nodes st ++ ns
    /\ edges st' = edges st ++ es
    /\ nodeId st' = nodeId st + length ns
    /\ map id ns = map nodeName (seq (nodeId st) (length ns))
    /\ Forall (branchFrom k) es.

(** [hoare k Q m]: run from a state whose counter is at least [k], [m]
    either throws or returns a value satisfying [Q] in a grown state. *)
Definition hoare {A} (k : nat) (Q : A -> Prop) (m : M A) : Prop :=
  forall st a st',
    k <= nodeId st -> m st = Ok (a, st') -> grows k st st' /\ Q a.

(** [pure m]: [m] leaves the state alone. *)
Definition pure {A} (m : M A) : Prop :=
  forall st a st', m st = Ok (a, st') -> st' = st.

(** The values reached from a value through array items and object
    properties. *)
Inductive child : value -> value -> Prop :=
| child_item x items : In x items -> child x (VArray items)
| child_prop get k : child (get k) (VObject get).

Definition descendant : value -> value -> Prop :=
  clos_trans value child.

(** ** Further specification vocabulary *)

(** [m] keeps the state property [J]. *)
Definition preserves {A} (J : state -> Prop) (m : M A) : Prop :=
  forall st a st', J st -> m st = Ok (a, st') -> J st'.

(** Every label of the node list is made of characters of the class of
    [sanitizeLabel]. *)
Definition classLabels (st : state) : Prop :=
  Forall (fun n => Forall (fun c => in_class c = true) (label n)) (nodes st).

(** The targets of the edges pushed without a [condition]: the
    parent-to-child links and the repeat-to-until links. *)
Definition structuralTargets (es : list DiagramEdge) : list jsstring :=
  flat_map (fun e => match condition e, to e with
                     | None, Some t => [t]
                     | _, _ => []
                     end) es.

(** No two structural edges share a target, and every target is the id of
    a node created so far. *)
Definition singleParent (st : state) : Prop :=
  NoDup (structuralTargets (edges st))
  /\ Forall (fun t => exists j, j < nodeId st /\ t = nodeName j)
            (structuralTargets (edges st)).

(** [i] is the id of one of the first [b] nodes. *)
Definition idBelow (b : nat) (i : jsstring) : Prop :=
  exists j, j < b /\ i = nodeName j.

(** An edge whose source is a node and whose target is a node, or is
    [null] on an edge that carries a [condition]. *)
Definition linkedEdge (b : nat) (e : DiagramEdge) : Prop :=
  idBelow b (from e)
  /\ match to e with
     | Some t => idBelow b t
     | None => condition e <> None
     end.

Definition linked (st : state) : Prop :=
  Forall (linkedEdge (nodeId st)) (edges st).

(** A parent id that [linkParent] would use is the id of a node. *)
Definition parentBelow (b : nat) (parentNodeId : option jsstring) : Prop :=
  match parentNodeId with
  | Some (c :: p) => idBelow b (c :: p)
  | _ => True
  end.

Definition resultBelow (b : nat) (r : option jsstring) : Prop :=
  match r with
  | Some i => idBelow b i
  | None => True
  end.

(** From a linked state whose counter is at least [b], [m] throws or
    returns [a] in a linked state whose counter is at least some [b'] not
    below [b], with [Q a b']. *)
Definition links {A} (b : nat) (m : M A) (Q : A -> nat -> Prop) : Prop :=
  forall st a st',
    b <= nodeId st -> linked st -> m st = Ok (a, st') ->
    linked st' /\ exists b', b <= b' /\ b' <= nodeId st' /\ Q a b'.

(** [m] returns the id the counter stands at, after appending the node of
    that id as its first node and the link from [parentNodeId], if there
    is one, as its first edge. *)
Definition rooted (parentNodeId : option jsstring)
    (m : M (option jsstring)) : Prop :=
  forall st r st',
    m st = Ok (r, st') ->
    r = Some (nodeName (nodeId st))
    /\ exists l rest moreEdges,
         nodes st' = nodes st ++ mkNode (nodeName (nodeId st)) l :: rest
         /\ edges st'
            = edges st ++ parentLink parentNodeId (nodeName (nodeId st))
              ++ moreEdges.

(** [m] returns [v] whenever it returns. *)
Definition constantly {A} (v : A) (m : M A) : Prop :=
  forall st r st', m st = Ok (r, st') -> r = v.

(** [m] creates one node, links it from [parentNodeId] and returns its
    id. *)
Definition leaf (parentNodeId : option jsstring) (m : M (option jsstring))
  : Prop :=
  forall st r st',
    m st = Ok (r, st') ->
    r = Some (nodeName (nodeId st))
    /\ exists l, st' = withNode st l parentNodeId.

(** The [case] labels of the two [switch] statements. *)
Definition ltmKinds : list string :=
  ["Chunk"; "IfStatement"; "WhileStatement"; "RepeatStatement";
   "ForNumericStatement"; "ForGenericStatement"; "FunctionDeclaration";
   "ReturnStatement"; "CallStatement"; "AssignmentStatement";
   "TableConstructorExpression"; "LocalStatement"]%string.

Definition part000Kinds : list string :=
  ["Chunk"; "IfStatement"; "WhileStatement"; "ForNumericStatement";
   "FunctionDeclaration"; "ReturnStatement"; "CallStatement";
   "AssignmentStatement"]%string.

(** The kinds whose [case] traverses a body. *)
Definition containerKinds : list string :=
  ["Chunk"; "IfStatement"; "WhileStatement"; "RepeatStatement";
   "ForNumericStatement"; "ForGenericStatement"; "FunctionDeclaration"
  ]%string.

(** The kinds whose [case] differs between the two files: added in
    [ltm.js], or, for [ForNumericStatement], labelled otherwise. *)
Definition changedKinds : list string :=
  ["RepeatStatement"; "ForNumericStatement"; "ForGenericStatement";
   "TableConstructorExpression"; "LocalStatement"]%string.

(** [node.type] is none of [kinds]. *)
Definition noneOf (kinds : list string) (type : value) : bool :=
  forallb (fun k => negb (strictEq type k)) kinds.

(** A value that is neither an array nor an object whose [type] is a
    string. *)
Definition untyped (node : value) : Prop :=
  match node with
  | VArray _ => False
  | VObject get => forall s, get "type"%string <> VString s
  | _ => True
  end.

(** No node the traversal reaches, through [body] and [clauses], has one
    of the changed kinds. *)
Fixpoint unchanged (v : value) {struct v} : Prop :=
  match v with
  | VArray items =>
      (fix all (l : list value) : Prop :=
         match l with
         | [] => True
         | x :: rest => unchanged x /\ all rest
         end) items
  | VObject get =>
      noneOf changedKinds (get "type"%string) = true
      /\ unchanged (get "body"%string)
      /\ unchanged (get "clauses"%string)
  | _ => True
  end.

(** The state [st] with nodes and edges put in front of its lists. *)
Definition prepended (ns : list DiagramNode) (es : list DiagramEdge)
    (st : state) : state :=
  mkState (ns ++ nodes st) (es ++ edges st) (nodeId st).

(** [m] does the same in front of any nodes and edges. *)
Definition framed {A} (m : M A) : Prop :=
  forall ns es st,
    m (prepended ns es st)
    = match m st with
      | Ok (a, st') => Ok (a, prepended ns es st')
      | Throw e => Throw e
      end.

(** The number of line feeds of a string. *)
Definition lineFeeds (s : jsstring) : nat := count_occ N.eq_dec s 10%N.

(** A string made of characters of the class of [sanitizeLabel]. *)
Definition inClass (s : jsstring) : Prop :=
  Forall (fun c => in_class c = true) s.

(** A clause as the parser builds it: an object whose [body] is an
    array. *)
Definition arrayBodied (clause : value) : Prop :=
  exists clause_get items,
    clause = VObject clause_get /\ clause_get "body"%string = VArray items.

(** The source of [e] is [allowed], or a node created at or after the
    [k]-th. *)
Definition sourcedFrom (k : nat) (allowed : option jsstring)
    (e : DiagramEdge) : Prop :=
  allowed = Some (from e) \/ exists j, k <= j /\ from e = nodeName j.

(** Run from a state whose counter is at least [k], [m] throws or returns
    a value satisfying [Q], having appended edges that are all
    [sourcedFrom k allowed], without lowering the counter. *)
Definition sources {A} (k : nat) (allowed : option jsstring)
    (Q : A -> Prop) (m : M A) : Prop :=
  forall st a st',
    k <= nodeId st -> m st = Ok (a, st') ->
    Q a /\ nodeId st <= nodeId st'
    /\ exists es, edges st' = edges st ++ es
                  /\ Forall (sourcedFrom k allowed) es.

(** [m] appends the link from [parentNodeId] to the node it creates
    first, then only edges that leave nodes it created. *)
Definition hung (parentNodeId : option jsstring) (m : M (option jsstring))
  : Prop :=
  forall st r st',
    m st = Ok (r, st') ->
    nodeId st < nodeId st'
    /\ exists more,
         edges st'
         = edges st ++ parentLink parentNodeId (nodeName (nodeId st)) ++ more
         /\ Forall (sourcedFrom (nodeId st) None) more.

(** A statement of a body: a node object that is not a [Chunk]. *)
Definition statementObject (x : value) : Prop :=
  exists get, x = VObject get /\ strictEq (get "type"%string) "Chunk" = false.

(** [firstNodes traverse p items st roots st']: the statements [items]
    are traversed one after the other with the parent [p], from [st] to
    [st']; [roots] lists, for each in turn, the id its traversal returned,
    which is the id the counter stood at and that of the first node the
    statement appended. *)
Inductive firstNodes (traverse : value -> option jsstring -> M (option jsstring))
    (p : option jsstring)
  : list value -> state -> list jsstring -> state -> Prop :=
| firstNodes_nil st : firstNodes traverse p [] st [] st
| firstNodes_cons x rest st l more st1 roots st' :
    traverse x p st = Ok (Some (nodeName (nodeId st)), st1) ->
    nodes st1 = nodes st ++ mkNode (nodeName (nodeId st)) l :: more ->
    firstNodes traverse p rest st1 roots st' ->
    firstNodes traverse p (x :: rest) st (nodeName (nodeId st) :: roots) st'.

(** The source of [e] is [parent], or a node created from the [k]-th on
    and before the [b]-th. *)
Definition leavesParentOrNew (parent : jsstring) (k b : nat)
    (e : DiagramEdge) : Prop :=
  from e = parent \/ exists j, k <= j /\ j < b /\ from e = nodeName j.

(** A clause whose body the traversal function traverses to the end from
    every state. *)
Definition clauseReturns
    (traverse : value -> option jsstring -> M (option jsstring))
    (ifConditionNode : jsstring) (clause : value) : Prop :=
  exists clause_get,
    clause = VObject clause_get
    /\ forall st, exists r st',
         traverse (clause_get "body"%string) (Some ifConditionNode) st
         = Ok (r, st').

(** * Properties *)

(** ** sanitizeLabel *)

Lemma in_class_sanitized (c : N) :
  in_class (if in_class c then c else 95%N) = true.
Proof.
  destruct (in_class c) eqn:E; [exact E | reflexivity].
Qed.

(** C7. [sanitizeLabel] is a total function on strings, it is idempotent,
    [sanitizeLabel (sanitizeLabel s) = sanitizeLabel s], and every
    character of its output is in the class [[A-Za-z0-9_ ]]. *)
Theorem sanitizeLabel_idempotent (s : jsstring) :
  sanitizeLabel (sanitizeLabel s) = sanitizeLabel s
  /\ Forall (fun c => in_class c = true) (sanitizeLabel s)
  /\ length (sanitizeLabel s) = length s.
Proof.
  unfold sanitizeLabel. repeat split.
  - rewrite map_map. apply map_ext. intros c.
    now rewrite in_class_sanitized.
  - apply Forall_forall. intros c H. apply in_map_iff in H.
    destruct H as (c0 & <- & _). apply in_class_sanitized.
  - apply length_map.
Qed.

(** ** A logic for the traversal monad *)

Lemma bind_ok {A B} (m : M A) (f : A -> M B) st b st' :
  bind m f st = Ok (b, st') ->
  exists a st1, m st = Ok (a, st1) /\ f a st1 = Ok (b, st').
Proof.
  unfold bind. destruct (m st) as [[a st1]|e]; [|discriminate].
  intros H. now exists a, st1.
Qed.

Lemma bind_eq {A B} (m : M A) (f : A -> M B) st a st1 :
  m st = Ok (a, st1) -> bind m f st = f a st1.
Proof. unfold bind. now intros ->. Qed.

Lemma bind_assoc {A B C} (m : M A) (f : A -> M B) (g : B -> M C) st :
  bind (bind m f) g st = bind m (fun a => bind (f a) g) st.
Proof. unfold bind. destruct (m st) as [[a st1]|e]; reflexivity. Qed.

Lemma grows_refl k st : grows k st st.
Proof.
  exists [], []. simpl. rewrite !app_nil_r, Nat.add_0_r. auto.
Qed.

Lemma grows_trans k st1 st2 st3 :
  grows k st1 st2 -> grows k st2 st3 -> grows k st1 st3.
Proof.
  intros (ns1 & es1 & Hn1 & He1 & Hi1 & Hm1 & Hb1)
         (ns2 & es2 & Hn2 & He2 & Hi2 & Hm2 & Hb2).
  exists (ns1 ++ ns2), (es1 ++ es2).
  rewrite Hn2, Hn1, He2, He1, Hi2, Hi1, !app_assoc, length_app.
  repeat split; auto.
  - lia.
  - rewrite map_app, seq_app, map_app, Hm1. f_equal.
    rewrite Hm2, Hi1. reflexivity.
  - apply Forall_app. auto.
Qed.

Lemma grows_nodeId k st st' : grows k st st' -> nodeId st <= nodeId st'.
Proof. intros (ns & es & _ & _ & H & _). lia. Qed.

Lemma hoare_ret {A} k (Q : A -> Prop) a : Q a -> hoare k Q (ret a).
Proof.
  intros HQ st a' st' _ H. inversion H; subst. split; auto using grows_refl.
Qed.

Lemma hoare_throw {A} k (Q : A -> Prop) e : hoare k Q (throw e).
Proof. intros st a st' _ H. discriminate. Qed.

Lemma hoare_bind {A B} k (Q1 : A -> Prop) (Q2 : B -> Prop) m f :
  hoare k Q1 m -> (forall a, Q1 a -> hoare k Q2 (f a)) ->
  hoare k Q2 (bind m f).
Proof.
  intros Hm Hf st b st' Hk H.
  apply bind_ok in H. destruct H as (a & st1 & H1 & H2).
  destruct (Hm _ _ _ Hk H1) as [G1 HQ].
  assert (Hk1 : k <= nodeId st1) by (apply grows_nodeId in G1; lia).
  destruct (Hf a HQ _ _ _ Hk1 H2) as [G2 HQ2].
  split; eauto using grows_trans.
Qed.

Lemma hoare_pure {A} k (m : M A) : pure m -> hoare k (fun _ => True) m.
Proof.
  intros Hp st a st' _ H. apply Hp in H. subst. auto using grows_refl.
Qed.

Lemma pure_ret {A} (a : A) : pure (ret a).
Proof. intros st a' st' H. now inversion H. Qed.

Lemma pure_throw {A} e : pure (@throw A e).
Proof. intros st a st' H. discriminate. Qed.

Lemma pure_bind {A B} (m : M A) (f : A -> M B) :
  pure m -> (forall a, pure (f a)) -> pure (bind m f).
Proof.
  intros Hm Hf st b st' H. apply bind_ok in H.
  destruct H as (a & st1 & H1 & H2).
  apply Hm in H1. apply Hf in H2. congruence.
Qed.

Lemma pure_orThrow {A} (o : option A) : pure (orThrow o).
Proof. destruct o; simpl; auto using pure_ret, pure_throw. Qed.

Lemma pure_prop v key : pure (prop v key).
Proof. apply pure_orThrow. Qed.

Lemma pure_index0 v : pure (index0 v).
Proof. apply pure_orThrow. Qed.

Lemma pure_mapM {A B} (f : A -> M B) l :
  (forall x, pure (f x)) -> pure (mapM f l).
Proof.
  intros Hf. induction l; simpl.
  - apply pure_ret.
  - apply pure_bind; auto. intros y. apply pure_bind; auto.
    intros ys. apply pure_ret.
Qed.

Lemma pure_arrayMap v f : (forall x, pure (f x)) -> pure (arrayMap v f).
Proof.
  intros Hf. destruct v; simpl; auto using pure_throw, pure_mapM.
Qed.

Lemma pure_interpolate v : pure (interpolate v).
Proof. apply pure_orThrow. Qed.

Lemma pure_joined sep items : pure (joined sep items).
Proof. apply pure_orThrow. Qed.

Create HintDb pure_db.
#[local] Hint Resolve pure_ret pure_throw pure_bind pure_prop pure_index0
  pure_interpolate pure_joined pure_mapM pure_arrayMap : pure_db.

Lemma hoare_createNode k (label : value) :
  hoare k (fun i => exists j, k <= j /\ i = nodeName j) (createNode label).
Proof.
  intros st a st' Hk H. unfold createNode in H.
  destruct label; try discriminate. inversion H; subst; clear H. split.
  - exists [mkNode (nodeName (nodeId st)) (sanitizeLabel s)], [].
    simpl. rewrite app_nil_r. repeat split; auto.
  - exists (nodeId st). auto.
Qed.

Lemma hoare_pushEdge k e :
  branchFrom k e -> hoare k (fun _ => True) (pushEdge e).
Proof.
  intros Hb st a st' _ H. inversion H; subst; clear H. split; auto.
  exists [], [e]. simpl. rewrite app_nil_r, Nat.add_0_r. repeat split; auto.
Qed.

Lemma hoare_linkParent k parentNodeId currentNodeId :
  hoare k (fun _ => True) (linkParent parentNodeId currentNodeId).
Proof.
  destruct parentNodeId as [[|c p]|]; simpl;
    try (apply hoare_ret; exact I).
  apply hoare_pushEdge. intros H. now elim H.
Qed.

Lemma hoare_forEach {A} k (f : A -> nat -> M unit) l :
  Forall (fun x => forall i, hoare k (fun _ => True) (f x i)) l ->
  forall i, hoare k (fun _ => True) (forEach f l i).
Proof.
  induction 1 as [|x rest Hx _ IH]; intros i; simpl.
  - apply hoare_ret. exact I.
  - eapply hoare_bind; [apply Hx|]. intros _ _. apply IH.
Qed.

(** ** Well-founded induction on the descendants of a value *)


Lemma child_wf : well_founded child.
Proof.
  intros v. induction v as [| | s | items IH | get IH] using value_ind;
    constructor; intros w Hw; inversion Hw; subst.
  - rewrite Forall_forall in IH. auto.
  - apply IH.
Qed.

Lemma descendant_wf : well_founded descendant.
Proof. apply wf_clos_trans, child_wf. Qed.

Lemma descendant_prop get k : descendant (get k) (VObject get).
Proof. apply t_step. constructor. Qed.

Lemma descendant_item x items : In x items -> descendant x (VArray items).
Proof. intros H. apply t_step. now constructor. Qed.

Lemma descendant_prop_item get k items x :
  get k = VArray items -> In x items -> descendant x (VObject get).
Proof.
  intros E H. eapply t_trans.
  - apply descendant_item, H.
  - rewrite <- E. apply descendant_prop.
Qed.

Lemma descendant_clause_body get k clauses clause_get k' :
  get k = VArray clauses -> In (VObject clause_get) clauses ->
  descendant (clause_get k') (VObject get).
Proof.
  intros E H. eapply t_trans.
  - apply descendant_prop.
  - eapply descendant_prop_item; eauto.
Qed.

Create HintDb desc_db.
#[local] Hint Resolve descendant_prop descendant_item descendant_prop_item
  descendant_clause_body : desc_db.

Lemma hoare_forEach_in {A} k (f : A -> nat -> M unit) l :
  (forall x, In x l -> forall i, hoare k (fun _ => True) (f x i)) ->
  forall i, hoare k (fun _ => True) (forEach f l i).
Proof.
  intros H. apply hoare_forEach. apply Forall_forall. exact H.
Qed.

(** ** Every traversal only grows the state *)

Ltac hoare_leaf IH :=
  first
    [ apply hoare_throw
    | apply hoare_ret; exact I
    | apply hoare_linkParent
    | apply hoare_pure; solve [auto 10 with pure_db]
    | apply IH; solve [eauto with desc_db]
    | apply hoare_pushEdge; intros Hc;
      first [ now elim Hc | eexists; split; [eassumption | reflexivity] ] ].

Ltac hoare_step IH :=
  match goal with
  | |- hoare _ _ (bind (createNode _) _) =>
      eapply hoare_bind; [apply hoare_createNode | intros ? (? & ? & ->)]
  | |- hoare _ _ (bind _ _) =>
      apply hoare_bind with (Q1 := fun _ => True); [| intros ? _]
  | |- hoare _ _ (if ?b then _ else _) => destruct b eqn:?
  | |- hoare _ _ (match ?v with _ => _ end) => destruct v eqn:?
  | |- hoare _ _ (forEach _ _ _) => apply hoare_forEach_in; intros ? ? ?
  | |- _ => hoare_leaf IH
  end.

Lemma ltm_traverse_grows node :
  forall parentNodeId k,
    hoare k (fun _ => True) (Ltm.traverseNode node parentNodeId).
Proof.
  induction node as [node IH] using (well_founded_induction descendant_wf).
  intros p k. destruct node as [| | s | items | get]; simpl;
    repeat hoare_step IH.
Qed.

Lemma part000_traverse_grows node :
  forall parentNodeId k,
    hoare k (fun _ => True) (Part000.traverseNode node parentNodeId).
Proof.
  induction node as [node IH] using (well_founded_induction descendant_wf).
  intros p k. destruct node as [| | s | items | get]; simpl;
    repeat hoare_step IH.
Qed.

(** ** Node ids *)

Lemma js_injective a b : js a = js b -> a = b.
Proof.
  unfold js. intros H.
  rewrite <- (string_of_list_ascii_of_string a),
          <- (string_of_list_ascii_of_string b).
  f_equal. revert H.
  generalize (list_ascii_of_string a) (list_ascii_of_string b).
  induction l as [|x l IH]; intros [|y l']; simpl; intros H;
    try discriminate; auto.
  inversion H as [[Hx Hl]]. f_equal; auto.
  rewrite <- (ascii_N_embedding x), <- (ascii_N_embedding y). now f_equal.
Qed.

Lemma numToString_injective n m : numToString n = numToString m -> n = m.
Proof.
  unfold numToString. intros H. apply js_injective in H.
  apply (f_equal NilEmpty.uint_of_string) in H.
  rewrite !NilEmpty.usu in H. inversion H as [H1].
  apply (f_equal Nat.of_uint) in H1.
  now rewrite !DecimalNat.Unsigned.of_to in H1.
Qed.

Lemma nodeName_injective n m : nodeName n = nodeName m -> n = m.
Proof.
  unfold nodeName. intros H. apply app_inv_head in H.
  now apply numToString_injective.
Qed.

Lemma nodeName_seq_NoDup a n : NoDup (map nodeName (seq a n)).
Proof.
  apply Injective_map_NoDup.
  - intros x y. apply nodeName_injective.
  - apply seq_NoDup.
Qed.

Lemma grows_numbered k st st' : numbered st -> grows k st st' -> numbered st'.
Proof.
  intros [Hm Hl] (ns & es & Hn & _ & Hi & Hs & _). unfold numbered.
  rewrite Hn, Hi, map_app, length_app, seq_app, map_app, Hm, Hs. split.
  - reflexivity.
  - lia.
Qed.

(** A call of [createNode] returns the id [node<counter>], which no node
    of the list has yet. *)
Lemma createNode_fresh label st i st' :
  numbered st -> createNode label st = Ok (i, st') ->
  i = nodeName (nodeId st) /\ ~ In i (map id (nodes st)) /\ numbered st'.
Proof.
  intros Hnum H.
  destruct (hoare_createNode 0 label st i st' (Nat.le_0_l _) H) as [G _].
  unfold createNode in H. destruct label; try discriminate.
  inversion H; subst; clear H. split; [reflexivity|]. split.
  - destruct Hnum as [Hm _]. rewrite Hm. intros Hin.
    apply in_map_iff in Hin. destruct Hin as (j & Hj & Hin).
    apply nodeName_injective in Hj. apply in_seq in Hin. lia.
  - eapply grows_numbered; eauto.
Qed.

(** C8. Within one traversal run the ids of the node list, in creation
    order, are [node0], [node1], [node2], ... without repetition: every
    call of [createNode] returned a new id, assigned in traversal order. *)
Theorem node_ids_sequential ast parentNodeId st r st' :
  numbered st ->
  Ltm.traverseNode ast parentNodeId st = Ok (r, st')
  \/ Part000.traverseNode ast parentNodeId st = Ok (r, st') ->
  map id (nodes st') = map nodeName (seq 0 (length (nodes st')))
  /\ NoDup (map id (nodes st'))
  /\ nodeId st' = length (nodes st').
Proof.
  intros Hnum H.
  assert (G : grows 0 st st').
  { destruct H as [H|H].
    - now apply (ltm_traverse_grows ast parentNodeId 0 st r st' (Nat.le_0_l _)).
    - now apply (part000_traverse_grows ast parentNodeId 0 st r st'
                   (Nat.le_0_l _)). }
  destruct (grows_numbered _ _ _ Hnum G) as [Hm Hl].
  rewrite <- Hl. repeat split; auto.
  rewrite Hm. apply nodeName_seq_NoDup.
Qed.

Lemma node_ids_sequential_witness :
  let st' :=
    mkState [mkNode (nodeName 0) (js "if undefined");
             mkNode (nodeName 1) (js "return 1");
             mkNode (nodeName 2) (js "return 2")]
            [mkEdge (nodeName 0) (Some (nodeName 1)) None;
             mkEdge (nodeName 0) (Some (nodeName 2)) None;
             mkEdge (nodeName 0) None (Some (js "No"))] 3 in
  numbered initialState
  /\ Ltm.traverseNode (chunk [ifElseStatement (identifier "x")]) None
       initialState = Ok (None, st')
  /\ NoDup (map id (nodes st')).
Proof.
  intros st'.
  assert (Hn : numbered initialState) by (split; reflexivity).
  assert (Ht : Ltm.traverseNode (chunk [ifElseStatement (identifier "x")])
                 None initialState = Ok (None, st')) by (vm_compute; reflexivity).
  split; [exact Hn|]. split; [exact Ht|].
  exact (proj1 (proj2 (node_ids_sequential _ _ _ _ _ Hn (or_introl Ht)))).
Defined.

(** ** Array-shaped input *)

Lemma forEach_ok {A} (f : A -> nat -> M unit) l :
  (forall x i s, In x l -> exists s', f x i s = Ok (tt, s')) ->
  forall i s, exists s', forEach f l i s = Ok (tt, s').
Proof.
  induction l as [|x rest IH]; intros Hf i s; simpl.
  - now exists s.
  - destruct (Hf x i s (or_introl eq_refl)) as (s1 & H1).
    rewrite (bind_eq _ _ _ _ _ H1).
    apply IH. intros y j s2 Hy. apply Hf. now right.
Qed.

Lemma discard_ok {A} (m : M A) s :
  (exists r s', m s = Ok (r, s')) ->
  exists s', bind m (fun _ => ret tt) s = Ok (tt, s').
Proof.
  intros (r & s' & H). exists s'. now rewrite (bind_eq _ _ _ _ _ H).
Qed.

(** C9. On an array [traverseNode] returns [null], also when the array is
    not empty and its elements create nodes: whenever the traversal of an
    array returns, it returns [null], and it does return whenever the
    traversal of each element does. *)
Theorem array_traversal_returns_null items parentNodeId st :
  (forall r st',
      Ltm.traverseNode (VArray items) parentNodeId st = Ok (r, st')
      \/ Part000.traverseNode (VArray items) parentNodeId st = Ok (r, st') ->
      r = None)
  /\ ((forall x s, In x items ->
         exists r s', Ltm.traverseNode x parentNodeId s = Ok (r, s')) ->
      exists st',
        Ltm.traverseNode (VArray items) parentNodeId st = Ok (None, st'))
  /\ ((forall x s, In x items ->
         exists r s', Part000.traverseNode x parentNodeId s = Ok (r, s')) ->
      exists st',
        Part000.traverseNode (VArray items) parentNodeId st = Ok (None, st')).
Proof.
  repeat split.
  - intros r st' [H|H]; simpl in H; apply bind_ok in H;
      destruct H as (u & st1 & _ & H); now inversion H.
  - intros Hx. simpl.
    destruct (forEach_ok
                (fun childNode (_ : nat) =>
                   Ltm.traverseNode childNode parentNodeId ;; ret tt)%js
                items) with (i := 0) (s := st) as (s' & H).
    + intros x i s Hin. apply discard_ok, Hx, Hin.
    + exists s'. now rewrite (bind_eq _ _ _ _ _ H).
  - intros Hx. simpl.
    destruct (forEach_ok
                (fun childNode (_ : nat) =>
                   Part000.traverseNode childNode parentNodeId ;; ret tt)%js
                items) with (i := 0) (s := st) as (s' & H).
    + intros x i s Hin. apply discard_ok, Hx, Hin.
    + exists s'. now rewrite (bind_eq _ _ _ _ _ H).
Qed.

Lemma array_traversal_returns_null_witness :
  let items := [returnStatement [numericLiteral "1"];
                returnStatement [numericLiteral "2"]] in
  (Ltm.traverseNode (VArray items) None initialState
   = Ok (None, mkState [mkNode (nodeName 0) (js "return 1");
                        mkNode (nodeName 1) (js "return 2")] [] 2))
  /\ exists st',
       Ltm.traverseNode (VArray items) None initialState = Ok (None, st').
Proof.
  intros items. split; [vm_compute; reflexivity|].
  apply (proj1 (proj2 (array_traversal_returns_null items None initialState))).
  intros x s [<-|[<-|[]]];
    match goal with
    | |- exists r s', ?t = _ =>
        destruct t as [[r s']|e] eqn:E;
          [eauto | vm_compute in E; discriminate]
    end.
Defined.

(** ** The scenario [if x then return 1 else return 2 end] *)

(** C1. Evaluation at the scenario: the edge pushed for the [else] clause
    has the [null] that the traversal of the clause's body array returned
    as its target, so the edge list is not resolved in the node list. *)
Theorem dangling_branch_edge :
  let ast := chunk [ifElseStatement (identifier "x")] in
  exists st,
    Ltm.traverseNode ast None initialState = Ok (None, st)
    /\ Part000.traverseNode ast None initialState = Ok (None, st)
    /\ In (mkEdge (nodeName 0) None (Some (js "No"))) (edges st)
    /\ ~ Forall (resolved (nodes st)) (edges st).
Proof.
  intros ast.
  exists (mkState [mkNode (nodeName 0) (js "if undefined");
                   mkNode (nodeName 1) (js "return 1");
                   mkNode (nodeName 2) (js "return 2")]
                  [mkEdge (nodeName 0) (Some (nodeName 1)) None;
                   mkEdge (nodeName 0) (Some (nodeName 2)) None;
                   mkEdge (nodeName 0) None (Some (js "No"))] 3).
  split; [vm_compute; reflexivity|]. split; [vm_compute; reflexivity|].
  split; [simpl; auto|].
  intros H. rewrite Forall_forall in H.
  destruct (H (mkEdge (nodeName 0) None (Some (js "No")))) as [_ (t & Ht & _)].
  - simpl; auto.
  - discriminate.
Qed.

(** C2. Evaluation at the scenario, with the condition as the parser
    builds it (an identifier, which has no [raw]) and with a condition that
    carries [raw]: three nodes, and three edges rather than the two of the
    scenario: both [return] nodes are linked by an edge without label, and
    the edge labelled [No] has no target. *)
Theorem if_else_scenario_edges :
  let run condition :=
    Ltm.traverseNode (chunk [ifElseStatement condition]) None initialState in
  let produced :=
    [mkEdge (nodeName 0) (Some (nodeName 1)) None;
     mkEdge (nodeName 0) (Some (nodeName 2)) None;
     mkEdge (nodeName 0) None (Some (js "No"))] in
  run (identifier "x")
  = Ok (None, mkState [mkNode (nodeName 0) (js "if undefined");
                       mkNode (nodeName 1) (js "return 1");
                       mkNode (nodeName 2) (js "return 2")] produced 3)
  /\ run (obj [("type", str "Identifier"); ("name", str "x");
               ("raw", str "x")]%string)
     = Ok (None, mkState [mkNode (nodeName 0) (js "if x");
                          mkNode (nodeName 1) (js "return 1");
                          mkNode (nodeName 2) (js "return 2")] produced 3)
  /\ produced <> [mkEdge (nodeName 0) (Some (nodeName 1)) None;
                  mkEdge (nodeName 0) (Some (nodeName 2)) (Some (js "No"))].
Proof.
  intros run produced. split; [vm_compute; reflexivity|].
  split; [vm_compute; reflexivity|]. discriminate.
Qed.

(** ** The process *)

(** C5, as stated, fails on [ltm.js]: a successful run writes two files. *)
Lemma ltm_main_writes_two_files :
  let events := Ltm.main (fun _ => Some (chunk [])) (Some (js "a.lua")) in
  succeeded events
  /\ filesWritten events = [js "output.mermaid"; js "output.mermaid.md"]
  /\ length (filesWritten events) <> 1.
Proof.
  split; [|split].
  - exists (js "Mermaid diagram saved to output.mermaid").
    vm_compute. auto.
  - vm_compute. reflexivity.
  - vm_compute. discriminate.
Qed.

(** C5, amended. A successful run of [ltm.js] writes exactly two files with
    fixed names, [output.mermaid] and then [output.mermaid.md]; a successful
    run of the earlier variant writes exactly one, [output.mermaid.md]. *)
Theorem main_writes_fixed_files parseLuaFile inputFilePath :
  (succeeded (Ltm.main parseLuaFile inputFilePath) ->
   filesWritten (Ltm.main parseLuaFile inputFilePath)
   = [js "output.mermaid"; js "output.mermaid.md"])
  /\ (succeeded (Part000.main parseLuaFile inputFilePath) ->
      filesWritten (Part000.main parseLuaFile inputFilePath)
      = [js "output.mermaid.md"]).
Proof.
  unfold Ltm.main, Part000.main, succeeded.
  destruct inputFilePath as [[|c path]|];
    try (split; intros (m & [H|[H|[]]]); discriminate).
  destruct (parseLuaFile (c :: path)) as [ast|];
    try (split; intros (m & [H|[]]); discriminate).
  split.
  - destruct (Ltm.generateMermaid ast); [reflexivity|].
    intros (m & [H|[]]); discriminate.
  - destruct (Part000.generateMermaid ast); [reflexivity|].
    intros (m & [H|[]]); discriminate.
Qed.

Lemma main_writes_fixed_files_witness :
  filesWritten (Ltm.main (fun _ => Some (chunk [])) (Some (js "a.lua")))
  = [js "output.mermaid"; js "output.mermaid.md"].
Proof.
  apply (proj1 (main_writes_fixed_files (fun _ => Some (chunk []))
                  (Some (js "a.lua")))).
  exists (js "Mermaid diagram saved to output.mermaid").
  vm_compute. auto.
Defined.

(** ** Statement cases *)

Lemma jsstring_eqb_eq a b : jsstring_eqb a b = true <-> a = b.
Proof.
  revert b. induction a as [|x a IH]; intros [|y b]; simpl;
    try (split; [discriminate|discriminate]); try tauto.
  rewrite andb_true_iff, N.eqb_eq, IH. split.
  - intros [-> ->]. reflexivity.
  - intros H. inversion H. auto.
Qed.

Lemma strictEq_true v lit : strictEq v lit = true -> v = str lit.
Proof.
  destruct v; simpl; try discriminate. intros H.
  apply jsstring_eqb_eq in H. now subst.
Qed.

Lemma createNode_eq s st :
  createNode (VString s) st
  = Ok (nodeName (nodeId st),
        mkState (nodes st ++ [mkNode (nodeName (nodeId st)) (sanitizeLabel s)])
                (edges st) (nodeId st + 1)).
Proof. reflexivity. Qed.

Lemma linkParent_eq p i st :
  linkParent p i st
  = Ok (tt, mkState (nodes st) (edges st ++ parentLink p i) (nodeId st)).
Proof.
  destruct st as [ns es n]. destruct p as [[|c p]|]; simpl; unfold ret; simpl;
    rewrite ?app_nil_r; reflexivity.
Qed.

Lemma create_link_eq {A} s p (k : jsstring -> M A) st :
  bind (createNode (VString s))
       (fun i => bind (linkParent p i) (fun _ => k i)) st
  = k (nodeName (nodeId st)) (withNode st s p).
Proof.
  unfold bind at 1. rewrite createNode_eq.
  unfold bind at 1. rewrite linkParent_eq. reflexivity.
Qed.

(** The [switch] at a node whose [type] is known. *)
Ltac switch_case H :=
  apply strictEq_true in H;
  cbn [Ltm.traverseNode Part000.traverseNode]; rewrite H;
  repeat match goal with
         | |- context [strictEq (str ?a) ?b] =>
             let v := eval vm_compute in (strictEq (str a) b) in
             change (strictEq (str a) b) with v
         end;
  cbv iota.

Lemma ltm_repeat_eq get p st :
  strictEq (get "type"%string) "RepeatStatement" = true ->
  Ltm.traverseNode (VObject get) p st
  = (Ltm.traverseNode (get "body"%string) (Some (nodeName (nodeId st))) ;;
     raw <- prop (get "condition"%string) "raw" ;;
     text <- interpolate raw ;;
     untilNode <- createNode (VString (js "until " ++ text)) ;;
     pushEdge (mkEdge (nodeName (nodeId st)) (Some untilNode) None) ;;
     ret (Some (nodeName (nodeId st)))) (withNode st (js "repeat") p).
Proof.
  intros H. switch_case H. rewrite create_link_eq. reflexivity.
Qed.

Lemma grows_state k st st' :
  grows k st st' ->
  exists ns es,
    st' = mkState (nodes st ++ ns) (edges st ++ es) (nodeId st + length ns).
Proof.
  intros (ns & es & Hn & He & Hi & _). exists ns, es.
  destruct st'; simpl in *. congruence.
Qed.

Lemma prop_ok v key st x st' :
  prop v key st = Ok (x, st') -> getProp v key = Some x /\ st' = st.
Proof.
  unfold prop. destruct (getProp v key); simpl; [|discriminate].
  intros H. inversion H. auto.
Qed.

Lemma prop_eq v key x st : getProp v key = Some x -> prop v key st = Ok (x, st).
Proof. unfold prop. now intros ->. Qed.

(** An array is printed as [join(",")] prints it. *)
Lemma toString_array items : toString (VArray items) = join (js ",") items.
Proof.
  reflexivity.
Qed.

Lemma interpolate_ok v st text st' :
  interpolate v st = Ok (text, st') -> toString v = Some text /\ st' = st.
Proof.
  unfold interpolate. destruct (toString v); simpl; [|discriminate].
  intros H. inversion H. auto.
Qed.

Lemma interpolate_eq v text st :
  toString v = Some text -> interpolate v st = Ok (text, st).
Proof. unfold interpolate. now intros ->. Qed.


(** C4. Evaluation at [repeat f() until done]: the policy is the one of
    the claim, a [repeat] node, the body below it, then a node linked from
    the repeat node; but the label of that node is [until undefined], not
    [until done], because the condition, an identifier, has no [raw]. *)
Theorem until_label_is_undefined :
  let ast := repeatStatement (identifier "done") [callStatement "f" []] in
  Ltm.traverseNode ast None initialState
  = Ok (Some (nodeName 0),
        mkState [mkNode (nodeName 0) (js "repeat");
                 mkNode (nodeName 1) (js "call f__");
                 mkNode (nodeName 2) (js "until undefined")]
                [mkEdge (nodeName 0) (Some (nodeName 1)) None;
                 mkEdge (nodeName 0) (Some (nodeName 2)) None] 3)
  /\ sanitizeLabel (js "until done") <> js "until undefined".
Proof.
  intros ast. split; [vm_compute; reflexivity|]. vm_compute. discriminate.
Qed.

(** X16. In [ltm.js] a [RepeatStatement] is handled by the first
    [case "RepeatStatement"] alone.  Whenever its traversal returns, it
    has appended a node labelled [repeat], linked from the parent if there
    is one, then what the traversal of the body with the repeat node as
    parent appends, then one node labelled [until ] followed by the text
    of [condition.raw], with an edge from the repeat node to it, and it
    returns the id of the repeat node.  It does return, with exactly that
    state, whenever the traversal of the body returns and
    [condition.raw] can be read and printed; the text is [undefined] when
    the condition has no [raw].  It throws a [TypeError] when the
    traversal of the body returns and [condition.raw] cannot be read or
    cannot be printed. *)
Theorem repeat_statement_shape get parentNodeId st :
  strictEq (get "type"%string) "RepeatStatement" = true ->
  let repeatNode := nodeName (nodeId st) in
  let st1 := withNode st (js "repeat") parentNodeId in
  (forall r st',
      Ltm.traverseNode (VObject get) parentNodeId st = Ok (r, st') ->
      exists bodyResult bodyNodes bodyEdges raw text,
        Ltm.traverseNode (get "body"%string) (Some repeatNode) st1
        = Ok (bodyResult,
              mkState (nodes st1 ++ bodyNodes) (edges st1 ++ bodyEdges)
                      (nodeId st1 + length bodyNodes))
        /\ getProp (get "condition"%string) "raw" = Some raw
        /\ toString raw = Some text
        /\ r = Some repeatNode
        /\ let untilNode := nodeName (nodeId st1 + length bodyNodes) in
           nodes st'
           = nodes st ++ [mkNode repeatNode (js "repeat")] ++ bodyNodes
             ++ [mkNode untilNode (sanitizeLabel (js "until " ++ text))]
           /\ edges st'
              = edges st ++ parentLink parentNodeId repeatNode ++ bodyEdges
                ++ [mkEdge repeatNode (Some untilNode) None]
           /\ nodeId st' = nodeId st + length bodyNodes + 2)
  /\ (forall bodyResult st2 raw text,
        Ltm.traverseNode (get "body"%string) (Some repeatNode) st1
        = Ok (bodyResult, st2) ->
        getProp (get "condition"%string) "raw" = Some raw ->
        toString raw = Some text ->
        Ltm.traverseNode (VObject get) parentNodeId st
        = Ok (Some repeatNode,
              mkState (nodes st2
                       ++ [mkNode (nodeName (nodeId st2))
                                  (sanitizeLabel (js "until " ++ text))])
                      (edges st2
                       ++ [mkEdge repeatNode (Some (nodeName (nodeId st2)))
                                  None])
                      (nodeId st2 + 1)))
  /\ (forall bodyResult st2,
        Ltm.traverseNode (get "body"%string) (Some repeatNode) st1
        = Ok (bodyResult, st2) ->
        lacks "raw" (get "condition"%string) ->
        Ltm.traverseNode (VObject get) parentNodeId st
        = Ok (Some repeatNode,
              mkState (nodes st2
                       ++ [mkNode (nodeName (nodeId st2))
                                  (js "until undefined")])
                      (edges st2
                       ++ [mkEdge repeatNode (Some (nodeName (nodeId st2)))
                                  None])
                      (nodeId st2 + 1)))
  /\ (forall bodyResult st2,
        Ltm.traverseNode (get "body"%string) (Some repeatNode) st1
        = Ok (bodyResult, st2) ->
        getProp (get "condition"%string) "raw" = None
        \/ (exists raw,
              getProp (get "condition"%string) "raw" = Some raw
              /\ toString raw = None) ->
        Ltm.traverseNode (VObject get) parentNodeId st = Throw TypeError).
Proof.
  intros Htype repeatNode st1.
  assert (Hthrows : forall bodyResult st2,
             Ltm.traverseNode (get "body"%string) (Some repeatNode) st1
             = Ok (bodyResult, st2) ->
             getProp (get "condition"%string) "raw" = None
             \/ (exists raw,
                   getProp (get "condition"%string) "raw" = Some raw
                   /\ toString raw = None) ->
             Ltm.traverseNode (VObject get) parentNodeId st
             = Throw TypeError).
  { intros rb st2 Hbody Hcases. rewrite (ltm_repeat_eq _ _ _ Htype).
    fold repeatNode st1. rewrite (bind_eq _ _ _ _ _ Hbody).
    unfold prop, interpolate, bind.
    destruct Hcases as [-> | (raw & -> & Htext)]; [reflexivity|].
    simpl. now rewrite Htext. }
  assert (Hreturns : forall bodyResult st2 raw text,
             Ltm.traverseNode (get "body"%string) (Some repeatNode) st1
             = Ok (bodyResult, st2) ->
             getProp (get "condition"%string) "raw" = Some raw ->
             toString raw = Some text ->
             Ltm.traverseNode (VObject get) parentNodeId st
             = Ok (Some repeatNode,
                   mkState (nodes st2
                            ++ [mkNode (nodeName (nodeId st2))
                                       (sanitizeLabel (js "until " ++ text))])
                           (edges st2
                            ++ [mkEdge repeatNode
                                       (Some (nodeName (nodeId st2))) None])
                           (nodeId st2 + 1))).
  { intros rb st2 raw text Hbody Hraw Htext.
    rewrite (ltm_repeat_eq _ _ _ Htype).
    fold repeatNode st1. rewrite (bind_eq _ _ _ _ _ Hbody).
    rewrite (bind_eq _ _ _ _ _ (prop_eq _ _ _ _ Hraw)).
    rewrite (bind_eq _ _ _ _ _ (interpolate_eq _ _ _ Htext)).
    rewrite (bind_eq _ _ _ _ _ (createNode_eq _ _)).
    reflexivity. }
  split; [|split; [exact Hreturns|split; [|exact Hthrows]]];
    [|intros rb st2 Hbody Hraw;
      exact (Hreturns rb st2 VUndefined (js "undefined") Hbody Hraw
               eq_refl)].
  - intros r st' H. rewrite (ltm_repeat_eq _ _ _ Htype) in H.
    fold repeatNode st1 in H.
    apply bind_ok in H. destruct H as (rb & st2 & Hbody & H).
    apply bind_ok in H. destruct H as (raw & st3 & Hraw & H).
    apply prop_ok in Hraw. destruct Hraw as [Hraw ->].
    apply bind_ok in H. destruct H as (text & st3 & Htext & H).
    apply interpolate_ok in Htext. destruct Htext as [Htext ->].
    rewrite (bind_eq _ _ _ _ _ (createNode_eq _ _)) in H.
    inversion H; subst r st'; clear H.
    destruct (grows_state 0 st1 st2) as (ns & es & ->).
    { now apply (ltm_traverse_grows _ _ 0 _ _ _ (Nat.le_0_l _) Hbody). }
    exists rb, ns, es, raw, text. split; [exact Hbody|]. simpl.
    rewrite <- !app_assoc. repeat split; auto. lia.
Qed.

Lemma repeat_statement_shape_witness :
  Ltm.traverseNode
    (repeatStatement (identifier "done") [callStatement "f" []])
    None initialState
  = Ok (Some (nodeName 0),
        mkState [mkNode (nodeName 0) (js "repeat");
                 mkNode (nodeName 1) (js "call f__");
                 mkNode (nodeName 2) (js "until undefined")]
                [mkEdge (nodeName 0) (Some (nodeName 1)) None;
                 mkEdge (nodeName 0) (Some (nodeName 2)) None] 3).
Proof.
  refine (proj1 (proj2 (repeat_statement_shape
                   (lookup [("type", str "RepeatStatement");
                            ("condition", identifier "done");
                            ("body", VArray [callStatement "f" []])
                           ]%string)
                   None initialState _))
                None
                (mkState [mkNode (nodeName 0) (js "repeat");
                          mkNode (nodeName 1) (js "call f__")]
                         [mkEdge (nodeName 0) (Some (nodeName 1)) None] 2)
                VUndefined (js "undefined") _ _ _).
  - vm_compute. reflexivity.
  - vm_compute. reflexivity.
  - reflexivity.
  - reflexivity.
Defined.

(** The earlier variant has no [case "RepeatStatement"]: there the node
    falls to the [default] case, one node labelled with the type and no
    traversal of the body. *)
Lemma part000_repeat_is_default get p st :
  strictEq (get "type"%string) "RepeatStatement" = true ->
  Part000.traverseNode (VObject get) p st
  = Ok (Some (nodeName (nodeId st)), withNode st (js "RepeatStatement") p).
Proof.
  intros H. switch_case H. unfold str. rewrite create_link_eq. reflexivity.
Qed.

(** ** The [IfStatement] case *)

Lemma jsstring_eqb_refl a : jsstring_eqb a a = true.
Proof. now apply jsstring_eqb_eq. Qed.

Lemma filter_seq_positive len :
  filter (fun i => 0 <? i) (seq 0 len) = seq 1 (len - 1).
Proof.
  destruct len as [|len]; [reflexivity|]. simpl. rewrite Nat.sub_0_r.
  apply forallb_filter_id. apply forallb_forall. intros i Hi.
  apply in_seq in Hi. apply Nat.ltb_lt. lia.
Qed.

Lemma ltm_if_eq get p st :
  strictEq (get "type"%string) "IfStatement" = true ->
  Ltm.traverseNode (VObject get) p st
  = match firstConditionText (get "clauses"%string) with
    | Some text =>
        (match get "clauses"%string with
         | VArray clauses =>
             ifClauses Ltm.traverseNode (nodeName (nodeId st)) clauses 0
         | _ => throw TypeError
         end ;;
         ret (Some (nodeName (nodeId st))))
          (withNode st (js "if " ++ text) p)
    | None => Throw TypeError
    end.
Proof.
  intros H. switch_case H.
  unfold firstConditionText, firstConditionRaw, index0, prop, interpolate.
  destruct (getIndex0 (get "clauses"%string)) as [clause0|];
    [|reflexivity].
  unfold bind at 1. simpl orThrow. unfold ret at 1.
  destruct (getProp clause0 "condition") as [condition0|]; [|reflexivity].
  unfold bind at 1. simpl orThrow. unfold ret at 1.
  destruct (getProp condition0 "raw") as [raw|]; [|reflexivity].
  unfold bind at 1. simpl orThrow. unfold ret at 1.
  destruct (toString raw) as [text|]; [|reflexivity].
  unfold bind at 1. simpl orThrow. unfold ret at 1.
  rewrite create_link_eq. reflexivity.
Qed.

Lemma forEach_cons {A} (f : A -> nat -> M unit) x rest i :
  forEach f (x :: rest) i = bind (f x i) (fun _ => forEach f rest (i + 1)).
Proof. reflexivity. Qed.

Lemma part000_if_eq get p st :
  strictEq (get "type"%string) "IfStatement" = true ->
  Part000.traverseNode (VObject get) p st
  = match firstConditionText (get "clauses"%string) with
    | Some text =>
        (match get "clauses"%string with
         | VArray clauses =>
             ifClauses Part000.traverseNode (nodeName (nodeId st)) clauses 0
         | _ => throw TypeError
         end ;;
         ret (Some (nodeName (nodeId st))))
          (withNode st (js "if " ++ text) p)
    | None => Throw TypeError
    end.
Proof.
  intros H. switch_case H.
  unfold firstConditionText, firstConditionRaw, index0, prop, interpolate.
  destruct (getIndex0 (get "clauses"%string)) as [clause0|];
    [|reflexivity].
  unfold bind at 1. simpl orThrow. unfold ret at 1.
  destruct (getProp clause0 "condition") as [condition0|]; [|reflexivity].
  unfold bind at 1. simpl orThrow. unfold ret at 1.
  destruct (getProp condition0 "raw") as [raw|]; [|reflexivity].
  unfold bind at 1. simpl orThrow. unfold ret at 1.
  destruct (toString raw) as [text|]; [|reflexivity].
  unfold bind at 1. simpl orThrow. unfold ret at 1.
  rewrite create_link_eq. reflexivity.
Qed.

(** The [IfStatement] case, for a traversal function that only grows the
    state and whose [IfStatement] case is the one of the source. *)
Section IfStatement.

Variable traverse : value -> option jsstring -> M (option jsstring).

Hypothesis traverse_grows :
  forall node parentNodeId k,
    hoare k (fun _ => True) (traverse node parentNodeId).

Lemma ifClauses_grows k j clauses :
  k <= j ->
  forall index,
    hoare k (fun _ => True) (ifClauses traverse (nodeName j) clauses index).
Proof.
  intros Hj index. unfold ifClauses. apply hoare_forEach_in.
  intros clause _ i. unfold clauseStep.
  apply hoare_bind with (Q1 := fun _ => True).
  - destruct clause; auto using hoare_throw.
  - intros cid _. destruct (0 <? i).
    + apply hoare_pushEdge. intros _. exists j. auto.
    + apply hoare_ret. exact I.
Qed.

Lemma branchFrom_filter n k es :
  n < k -> Forall (branchFrom k) es ->
  filter (isBranchFrom (nodeName n)) es = [].
Proof.
  intros Hn. induction 1 as [|e es He _ IH]; simpl; [reflexivity|].
  rewrite IH. unfold isBranchFrom.
  destruct (condition e) as [c|] eqn:Hc; [|reflexivity].
  destruct He as (j & Hj & Hfrom); [congruence|].
  destruct (jsstring_eqb (from e) (nodeName n)) eqn:E; [|reflexivity].
  apply jsstring_eqb_eq in E. rewrite Hfrom in E.
  apply nodeName_injective in E. lia.
Qed.

Lemma ifClauses_branch_edges n clauses :
  forall index st st',
    n < nodeId st ->
    ifClauses traverse (nodeName n) clauses index st = Ok (tt, st') ->
    exists es,
      edges st' = edges st ++ es
      /\ map condition (filter (isBranchFrom (nodeName n)) es)
         = map (fun i => Some (branchLabel i))
               (filter (fun i => 0 <? i) (seq index (length clauses))).
Proof.
  induction clauses as [|clause rest IH]; intros index st st' Hn H.
  - inversion H; subst. exists []. now rewrite app_nil_r.
  - unfold ifClauses in H. simpl in H.
    apply bind_ok in H. destruct H as ([] & st2 & Hstep & Hrest).
    fold (ifClauses traverse (nodeName n)) in Hrest.
    unfold clauseStep in Hstep. apply bind_ok in Hstep. destruct Hstep as (cid & st1 & Hbody & Hpush).
    destruct clause as [| | | |cg]; try discriminate.
    destruct (traverse_grows _ _ (nodeId st) _ _ _ (le_n _) Hbody)
      as [(ns1 & es1 & _ & He1 & Hi1 & _ & Hb1) _].
    pose proof (branchFrom_filter n _ _ Hn Hb1) as Hf1.
    rewrite Nat.add_1_r in Hrest.
    simpl seq. simpl filter.
    destruct (0 <? index) eqn:Hidx.
    + inversion Hpush; subst st2; clear Hpush.
      apply IH in Hrest; [|simpl; lia]. destruct Hrest as (es2 & He2 & Hf2).
      simpl in He2. rewrite He1 in He2.
      eexists. split.
      * rewrite He2, <- !app_assoc. reflexivity.
      * rewrite !filter_app, Hf1. simpl. unfold isBranchFrom at 1. simpl.
        rewrite jsstring_eqb_refl. simpl. now rewrite Hf2.
    + inversion Hpush; subst st2; clear Hpush.
      apply IH in Hrest; [|lia]. destruct Hrest as (es2 & He2 & Hf2).
      rewrite He1 in He2.
      eexists. split.
      * rewrite He2, <- !app_assoc. reflexivity.
      * rewrite !filter_app, Hf1. simpl. exact Hf2.
Qed.

Lemma ifClauses_sameBody ifNode clauses clauses' :
  Forall2 sameBody clauses clauses' ->
  forall index st,
    ifClauses traverse ifNode clauses index st
    = ifClauses traverse ifNode clauses' index st.
Proof.
  induction 1 as [|c c' rest rest' Hc _ IH]; intros index st;
    [reflexivity|].
  unfold ifClauses. rewrite !forEach_cons. unfold bind.
  replace (clauseStep traverse ifNode c index st)
    with (clauseStep traverse ifNode c' index st).
  - destruct (clauseStep traverse ifNode c' index st) as [[u s1]|e];
      [apply IH | reflexivity].
  - unfold clauseStep.
    destruct c, c'; simpl in Hc; try contradiction; try reflexivity.
    now rewrite Hc.
Qed.

Lemma ifClauses_return ifNode clauses :
  Forall (clauseReturns traverse ifNode) clauses ->
  forall index st, exists st',
    ifClauses traverse ifNode clauses index st = Ok (tt, st').
Proof.
  induction 1 as [|clause rest Hc _ IH]; intros index st.
  - exists st. reflexivity.
  - unfold ifClauses. rewrite forEach_cons.
    fold (ifClauses traverse ifNode).
    destruct Hc as (cg & -> & Hbody).
    destruct (Hbody st) as (r & st1 & Hr).
    assert (Hstep : exists st2,
               clauseStep traverse ifNode (VObject cg) index st
               = Ok (tt, st2)).
    { unfold clauseStep. rewrite (bind_eq _ _ _ _ _ Hr).
      destruct (0 <? index); eexists; reflexivity. }
    destruct Hstep as (st2 & Hstep).
    rewrite (bind_eq _ _ _ _ _ Hstep). apply IH.
Qed.

Hypothesis traverse_if :
  forall get p st,
    strictEq (get "type"%string) "IfStatement" = true ->
    traverse (VObject get) p st
    = match firstConditionText (get "clauses"%string) with
      | Some text =>
          (match get "clauses"%string with
           | VArray clauses =>
               ifClauses traverse (nodeName (nodeId st)) clauses 0
           | _ => throw TypeError
           end ;;
           ret (Some (nodeName (nodeId st))))
            (withNode st (js "if " ++ text) p)
      | None => Throw TypeError
      end.

Lemma parentLink_filter p i ifNode :
  filter (isBranchFrom ifNode) (parentLink p i) = [].
Proof. destruct p as [[|c p]|]; reflexivity. Qed.

Lemma if_statement_generic get clauses parentNodeId st :
  strictEq (get "type"%string) "IfStatement" = true ->
  get "clauses"%string = VArray clauses ->
  let ifNode := nodeName (nodeId st) in
  (forall text,
      firstConditionText (VArray clauses) = Some text ->
      Forall (clauseReturns traverse ifNode) clauses ->
      exists st', traverse (VObject get) parentNodeId st = Ok (Some ifNode, st'))
  /\ (firstConditionText (VArray clauses) = None ->
      traverse (VObject get) parentNodeId st = Throw TypeError)
  /\ (forall r st',
        traverse (VObject get) parentNodeId st = Ok (r, st') ->
        exists text bodyNodes newEdges,
          firstConditionText (VArray clauses) = Some text
          /\ r = Some ifNode
          /\ nodes st'
             = nodes st
               ++ mkNode ifNode (sanitizeLabel (js "if " ++ text))
                  :: bodyNodes
          /\ map id bodyNodes
             = map nodeName (seq (nodeId st + 1) (length bodyNodes))
          /\ edges st' = edges st ++ newEdges
          /\ map condition (filter (isBranchFrom ifNode) newEdges)
             = map (fun i => Some (branchLabel i))
                   (seq 1 (length clauses - 1)))
  /\ (forall get' clauses',
        strictEq (get' "type"%string) "IfStatement" = true ->
        get' "clauses"%string = VArray clauses' ->
        firstConditionText (VArray clauses')
        = firstConditionText (VArray clauses) ->
        Forall2 sameBody clauses clauses' ->
        traverse (VObject get') parentNodeId st
        = traverse (VObject get) parentNodeId st).
Proof.
  intros Htype Hclauses ifNode.
  assert (Heq : traverse (VObject get) parentNodeId st
                = match firstConditionText (VArray clauses) with
                  | Some text =>
                      (ifClauses traverse ifNode clauses 0 ;;
                       ret (Some ifNode))
                        (withNode st (js "if " ++ text) parentNodeId)
                  | None => Throw TypeError
                  end).
  { rewrite (traverse_if _ _ _ Htype), Hclauses. reflexivity. }
  split; [|split; [|split]].
  - intros text Htext Hret. rewrite Heq, Htext.
    destruct (ifClauses_return ifNode clauses Hret 0
                (withNode st (js "if " ++ text) parentNodeId)) as (st' & H).
    exists st'. now rewrite (bind_eq _ _ _ _ _ H).
  - intros Hnone. now rewrite Heq, Hnone.
  - intros r st' H. rewrite Heq in H.
    destruct (firstConditionText (VArray clauses)) as [text|];
      [|discriminate].
    apply bind_ok in H. destruct H as ([] & st2 & Hloop & Hret).
    inversion Hret; subst r st2; clear Hret.
    assert (Hlt : nodeId st
                  < nodeId (withNode st (js "if " ++ text)
                                     parentNodeId)) by (simpl; lia).
    destruct (ifClauses_grows (nodeId st) (nodeId st) clauses (le_n _) 0
                _ _ _ (Nat.lt_le_incl _ _ Hlt) Hloop)
      as [(ns & es0 & Hn & _ & _ & Hm & _) _].
    destruct (ifClauses_branch_edges (nodeId st) clauses 0 _ _ Hlt Hloop)
      as (es & He & Hf).
    exists text, ns, (parentLink parentNodeId ifNode ++ es).
    simpl in Hn, Hm, He. rewrite <- app_assoc in Hn.
    repeat split; auto.
    + now rewrite He, app_assoc.
    + rewrite filter_app, parentLink_filter, app_nil_l. unfold ifNode.
      now rewrite Hf, filter_seq_positive.
  - intros get' clauses' Htype' Hclauses' Htext Hsame.
    rewrite Heq, (traverse_if _ _ _ Htype'), Hclauses', Htext.
    destruct (firstConditionText (VArray clauses)); [|reflexivity].
    unfold bind. fold ifNode.
    now rewrite (ifClauses_sameBody ifNode _ _ Hsame).
Qed.

End IfStatement.

(** [if a then return 1 elseif b then return 2 else return 3 end] *)
Lemma three_clauses_run :
  let clauses :=
    [obj [("type", str "IfClause"); ("condition", identifier "a");
          ("body", VArray [returnStatement [numericLiteral "1"]])];
     obj [("type", str "ElseifClause"); ("condition", identifier "b");
          ("body", VArray [returnStatement [numericLiteral "2"]])];
     obj [("type", str "ElseClause");
          ("body", VArray [returnStatement [numericLiteral "3"]])]]%string in
  Ltm.traverseNode
    (obj [("type", str "IfStatement"); ("clauses", VArray clauses)]%string)
    None initialState
  = Ok (Some (nodeName 0),
        mkState [mkNode (nodeName 0) (js "if undefined");
                 mkNode (nodeName 1) (js "return 1");
                 mkNode (nodeName 2) (js "return 2");
                 mkNode (nodeName 3) (js "return 3")]
                [mkEdge (nodeName 0) (Some (nodeName 1)) None;
                 mkEdge (nodeName 0) (Some (nodeName 2)) None;
                 mkEdge (nodeName 0) None (Some (js "No"));
                 mkEdge (nodeName 0) (Some (nodeName 3)) None;
                 mkEdge (nodeName 0) None (Some (js "Else"))] 4).
Proof. vm_compute. reflexivity. Qed.

(** C6. Evaluation at
    [if a then return 1 elseif b then return 2 else return 3 end], in both
    variants: one condition node, the conditions of the later clauses
    nowhere, the labels [No] and [Else] on the branch edges; but the label
    of the condition node is [if undefined], not [if a], because the
    condition, an identifier, has no [raw]. *)
Theorem if_label_is_undefined :
  let ast := ifElseifStatement (identifier "a") (identifier "b") in
  exists st,
    Ltm.traverseNode ast None initialState = Ok (Some (nodeName 0), st)
    /\ Part000.traverseNode ast None initialState = Ok (Some (nodeName 0), st)
    /\ map label (nodes st)
       = [js "if undefined"; js "return 1"; js "return 2"; js "return 3"]
    /\ map condition (filter (isBranchFrom (nodeName 0)) (edges st))
       = [Some (js "No"); Some (js "Else")]
    /\ sanitizeLabel (js "if a") <> js "if undefined".
Proof.
  intros ast.
  exists (mkState [mkNode (nodeName 0) (js "if undefined");
                   mkNode (nodeName 1) (js "return 1");
                   mkNode (nodeName 2) (js "return 2");
                   mkNode (nodeName 3) (js "return 3")]
                  [mkEdge (nodeName 0) (Some (nodeName 1)) None;
                   mkEdge (nodeName 0) (Some (nodeName 2)) None;
                   mkEdge (nodeName 0) None (Some (js "No"));
                   mkEdge (nodeName 0) (Some (nodeName 3)) None;
                   mkEdge (nodeName 0) None (Some (js "Else"))] 4).
  split; [vm_compute; reflexivity|]. split; [vm_compute; reflexivity|].
  split; [reflexivity|]. split; [vm_compute; reflexivity|].
  vm_compute. discriminate.
Qed.

(** X17. The [IfStatement] case, in both variants, for a node whose
    [clauses] is an array.  The traversal returns, with the id of the
    if-node, whenever [clauses[0].condition.raw] can be read and printed
    and every clause is an object whose body the traversal traverses to
    the end; it throws when that text cannot be read or printed.
    Whenever it returns, it has appended first one node, labelled [if ]
    followed by that text, which is the [raw] of the first condition when
    it is a string and [undefined] when the first condition has no [raw];
    the nodes after it carry the following ids in order; the edges with a
    label that leave the if-node are, in order, one for each clause of
    index 1 and more, labelled [No] for index 1 and [Else] after.  The
    result does not depend on the conditions of the clauses after the
    first: an [IfStatement] with the same first condition text and the
    same clause bodies is traversed to the same result. *)
Theorem if_statement_shape traverse get clauses parentNodeId st :
  traverse = Ltm.traverseNode \/ traverse = Part000.traverseNode ->
  strictEq (get "type"%string) "IfStatement" = true ->
  get "clauses"%string = VArray clauses ->
  let ifNode := nodeName (nodeId st) in
  (forall text,
      firstConditionText (VArray clauses) = Some text ->
      Forall (clauseReturns traverse ifNode) clauses ->
      exists st', traverse (VObject get) parentNodeId st = Ok (Some ifNode, st'))
  /\ (firstConditionText (VArray clauses) = None ->
      traverse (VObject get) parentNodeId st = Throw TypeError)
  /\ (forall r st',
        traverse (VObject get) parentNodeId st = Ok (r, st') ->
        exists text bodyNodes newEdges,
          firstConditionText (VArray clauses) = Some text
          /\ r = Some ifNode
          /\ nodes st'
             = nodes st
               ++ mkNode ifNode (sanitizeLabel (js "if " ++ text))
                  :: bodyNodes
          /\ map id bodyNodes
             = map nodeName (seq (nodeId st + 1) (length bodyNodes))
          /\ edges st' = edges st ++ newEdges
          /\ map condition (filter (isBranchFrom ifNode) newEdges)
             = map (fun i => Some (branchLabel i))
                   (seq 1 (length clauses - 1)))
  /\ (forall get' clauses',
        strictEq (get' "type"%string) "IfStatement" = true ->
        get' "clauses"%string = VArray clauses' ->
        firstConditionText (VArray clauses')
        = firstConditionText (VArray clauses) ->
        Forall2 sameBody clauses clauses' ->
        traverse (VObject get') parentNodeId st
        = traverse (VObject get) parentNodeId st)
  /\ (forall clause_get rest condition_get,
        clauses = VObject clause_get :: rest ->
        clause_get "condition"%string = VObject condition_get ->
        (forall text,
            condition_get "raw"%string = VString text ->
            firstConditionText (VArray clauses) = Some text)
        /\ (condition_get "raw"%string = VUndefined ->
            firstConditionText (VArray clauses) = Some (js "undefined"))).
Proof.
  intros Hvariant Htype Hclauses ifNode.
  assert (Htext : forall clause_get rest condition_get,
             clauses = VObject clause_get :: rest ->
             clause_get "condition"%string = VObject condition_get ->
             (forall text,
                 condition_get "raw"%string = VString text ->
                 firstConditionText (VArray clauses) = Some text)
             /\ (condition_get "raw"%string = VUndefined ->
                 firstConditionText (VArray clauses)
                 = Some (js "undefined"))).
  { intros cg rest cond -> Hcond.
    unfold firstConditionText, firstConditionRaw. simpl.
    rewrite Hcond. simpl. split; [intros text|]; intros ->; reflexivity. }
  destruct Hvariant as [->| ->].
  - destruct (if_statement_generic Ltm.traverseNode ltm_traverse_grows
                ltm_if_eq get clauses parentNodeId st Htype Hclauses)
      as (H1 & H2 & H3 & H4).
    exact (conj H1 (conj H2 (conj H3 (conj H4 Htext)))).
  - destruct (if_statement_generic Part000.traverseNode
                part000_traverse_grows part000_if_eq get clauses
                parentNodeId st Htype Hclauses)
      as (H1 & H2 & H3 & H4).
    exact (conj H1 (conj H2 (conj H3 (conj H4 Htext)))).
Qed.

Lemma if_statement_shape_witness :
  exists st' bodyNodes,
    Ltm.traverseNode
      (ifElseifStatement (booleanLiteral "true") (identifier "b"))
      None initialState = Ok (Some (nodeName 0), st')
    /\ nodes st' = mkNode (nodeName 0) (js "if true") :: bodyNodes.
Proof.
  pose (clauses :=
    [obj [("type", str "IfClause"); ("condition", booleanLiteral "true");
          ("body", VArray [returnStatement [numericLiteral "1"]])];
     obj [("type", str "ElseifClause"); ("condition", identifier "b");
          ("body", VArray [returnStatement [numericLiteral "2"]])];
     obj [("type", str "ElseClause");
          ("body", VArray [returnStatement [numericLiteral "3"]])]]%string).
  pose proof (if_statement_shape Ltm.traverseNode
                (lookup [("type", str "IfStatement");
                         ("clauses", VArray clauses)]%string)
                clauses None initialState (or_introl eq_refl)
                eq_refl eq_refl) as (Hreturns & _ & Hshape & _).
  destruct (Hreturns (js "true") eq_refl) as (st' & Hrun).
  { repeat constructor; eexists; (split; [reflexivity|]); intros s;
      match goal with
      | |- exists r s', ?t = _ =>
          destruct t as [[r s']|e] eqn:E;
            [eauto | vm_compute in E; discriminate]
      end. }
  destruct (Hshape _ _ Hrun)
    as (text & bodyNodes & newEdges & Htext & _ & Hnodes & _).
  exists st', bodyNodes. split; [exact Hrun|].
  injection Htext as <-. exact Hnodes.
Defined.

(** ** Missing source text *)










(** * Further properties of the traversal *)

(** ** State properties kept by every traversal *)

Section Invariant.

Variable J : state -> Prop.

Hypothesis J_node : forall st s p, J st -> J (withNode st s p).
Hypothesis J_edge_to_new :
  forall st s f,
    J st ->
    J (mkState (nodes st ++ [mkNode (nodeName (nodeId st)) (sanitizeLabel s)])
               (edges st ++ [mkEdge f (Some (nodeName (nodeId st))) None])
               (nodeId st + 1)).
Hypothesis J_branch :
  forall st f t c,
    J st -> J (mkState (nodes st) (edges st ++ [mkEdge f t (Some c)]) (nodeId st)).

Lemma preserves_ret {A} (a : A) : preserves J (ret a).
Proof. intros st a' st' HJ H. now inversion H; subst. Qed.

Lemma preserves_throw {A} e : preserves J (@throw A e).
Proof. intros st a st' _ H. discriminate. Qed.

Lemma preserves_bind {A B} (m : M A) (f : A -> M B) :
  preserves J m -> (forall a, preserves J (f a)) -> preserves J (bind m f).
Proof.
  intros Hm Hf st b st' HJ H. apply bind_ok in H.
  destruct H as (a & st1 & H1 & H2).
  apply (Hf a st1 b st'); [apply (Hm st a st1)|]; assumption.
Qed.

Lemma preserves_pure {A} (m : M A) : pure m -> preserves J m.
Proof. intros Hp st a st' HJ H. apply Hp in H. now subst. Qed.

Lemma preserves_forEach_in {A} (f : A -> nat -> M unit) l :
  (forall x, In x l -> forall i, preserves J (f x i)) ->
  forall i, preserves J (forEach f l i).
Proof.
  induction l as [|x rest IH]; intros Hf i; simpl.
  - apply preserves_ret.
  - apply preserves_bind; [apply Hf; now left|].
    intros _. apply IH. intros y Hy. apply Hf. now right.
Qed.

Lemma preserves_create_link {A} label p (k : jsstring -> M A) :
  (forall i, preserves J (k i)) ->
  preserves J (bind (createNode label)
                    (fun i => bind (linkParent p i) (fun _ => k i))).
Proof.
  intros Hk st a st' HJ H. destruct label as [| |s| |]; try discriminate.
  rewrite create_link_eq in H. eapply Hk; [|exact H]. now apply J_node.
Qed.

Lemma preserves_create_edge {A} s f (k : jsstring -> M A) :
  (forall i, preserves J (k i)) ->
  preserves J (bind (createNode (VString s))
                    (fun i => bind (pushEdge (mkEdge f (Some i) None))
                                   (fun _ => k i))).
Proof.
  intros Hk st a st' HJ H. unfold bind at 1 in H. rewrite createNode_eq in H.
  unfold bind at 1 in H. simpl in H. eapply Hk; [|exact H].
  now apply J_edge_to_new.
Qed.

Lemma preserves_branch f t c : preserves J (pushEdge (mkEdge f t (Some c))).
Proof.
  intros st a st' HJ H. inversion H; subst. now apply J_branch.
Qed.

Ltac preserves_step IH :=
  match goal with
  | |- preserves _ (bind (createNode _) (fun i => bind (linkParent _ i) _)) =>
      apply preserves_create_link; intros ?
  | |- preserves _ (bind (createNode _) (fun i => bind (pushEdge _) _)) =>
      apply preserves_create_edge; intros ?
  | |- preserves _ (bind _ _) => apply preserves_bind; [| intros ?]
  | |- preserves _ (if ?b then _ else _) => destruct b eqn:?
  | |- preserves _ (match ?v with _ => _ end) => destruct v eqn:?
  | |- preserves _ (forEach _ _ _) => apply preserves_forEach_in; intros ? ? ?
  | |- preserves _ (ret _) => apply preserves_ret
  | |- preserves _ (throw _) => apply preserves_throw
  | |- preserves _ (pushEdge _) => apply preserves_branch
  | |- preserves _ _ =>
      first [ apply preserves_pure; solve [auto 10 with pure_db]
            | apply IH; solve [eauto with desc_db] ]
  end.

Lemma ltm_traverse_preserves node :
  forall parentNodeId, preserves J (Ltm.traverseNode node parentNodeId).
Proof.
  induction node as [node IH] using (well_founded_induction descendant_wf).
  intros p. destruct node as [| | s | items | get]; simpl;
    repeat preserves_step IH.
Qed.

Lemma part000_traverse_preserves node :
  forall parentNodeId, preserves J (Part000.traverseNode node parentNodeId).
Proof.
  induction node as [node IH] using (well_founded_induction descendant_wf).
  intros p. destruct node as [| | s | items | get]; simpl;
    repeat preserves_step IH.
Qed.

End Invariant.

Lemma classLabels_node st s p : classLabels st -> classLabels (withNode st s p).
Proof.
  unfold classLabels. simpl. intros H. apply Forall_app. split; [exact H|].
  constructor; [|constructor]. simpl. unfold sanitizeLabel.
  apply Forall_forall. intros c Hc. apply in_map_iff in Hc.
  destruct Hc as (c0 & <- & _). apply in_class_sanitized.
Qed.

Lemma classLabels_edge st s f :
  classLabels st ->
  classLabels
    (mkState (nodes st ++ [mkNode (nodeName (nodeId st)) (sanitizeLabel s)])
             (edges st ++ [mkEdge f (Some (nodeName (nodeId st))) None])
             (nodeId st + 1)).
Proof. apply (classLabels_node st s None). Qed.

Lemma classLabels_branch st f t c :
  classLabels st ->
  classLabels (mkState (nodes st) (edges st ++ [mkEdge f t (Some c)])
                       (nodeId st)).
Proof. intros H. exact H. Qed.

(** X1. The labels of the node list stay sanitized: from a state whose
    labels are made of class characters, the traversal, in both variants,
    returns a state whose labels are too; so no label holds a line feed,
    a bracket, a semicolon or a bar. *)
Theorem labels_stay_in_class ast parentNodeId st r st' :
  classLabels st ->
  Ltm.traverseNode ast parentNodeId st = Ok (r, st')
  \/ Part000.traverseNode ast parentNodeId st = Ok (r, st') ->
  classLabels st'
  /\ forall n c,
       In n (nodes st') -> In c (label n) ->
       c <> 10%N /\ c <> 91%N /\ c <> 93%N /\ c <> 59%N /\ c <> 124%N.
Proof.
  intros HJ H.
  assert (HJ' : classLabels st').
  { destruct H as [H|H].
    - exact (ltm_traverse_preserves classLabels classLabels_node
               classLabels_edge classLabels_branch _ _ _ _ _ HJ H).
    - exact (part000_traverse_preserves classLabels classLabels_node
               classLabels_branch _ _ _ _ _ HJ H). }
  split; [exact HJ'|]. intros n c Hn Hc.
  unfold classLabels in HJ'. rewrite Forall_forall in HJ'.
  specialize (HJ' n Hn). rewrite Forall_forall in HJ'. specialize (HJ' c Hc).
  repeat split; intros ->; discriminate.
Qed.

Lemma labels_stay_in_class_witness :
  classLabels (mkState [mkNode (nodeName 0) (js "while undefined")] [] 1).
Proof.
  refine (proj1 (labels_stay_in_class (whileStatement (identifier "x") [])
                   None initialState (Some (nodeName 0))
                   (mkState [mkNode (nodeName 0) (js "while undefined")] [] 1)
                   _ _)).
  - constructor.
  - left. vm_compute. reflexivity.
Defined.

Lemma structuralTargets_app a b :
  structuralTargets (a ++ b) = structuralTargets a ++ structuralTargets b.
Proof. apply flat_map_app. Qed.

Lemma singleParent_add st ns f :
  singleParent st ->
  singleParent (mkState ns (edges st ++ [mkEdge f (Some (nodeName (nodeId st))) None])
                        (nodeId st + 1)).
Proof.
  intros [Hnd Hlt]. unfold singleParent. simpl.
  rewrite structuralTargets_app. simpl. split.
  - apply NoDup_app. repeat split; auto.
    + constructor; [intros []|constructor].
    + intros x Hx [<-|[]]. rewrite Forall_forall in Hlt.
      destruct (Hlt _ Hx) as (j & Hj & E). apply nodeName_injective in E. lia.
  - apply Forall_app. split.
    + eapply Forall_impl; [|exact Hlt]. intros x (j & Hj & ->).
      exists j. split; [lia|reflexivity].
    + constructor; [|constructor]. exists (nodeId st). split; [lia|reflexivity].
Qed.

Lemma singleParent_keep st ns es :
  structuralTargets es = [] ->
  singleParent st ->
  singleParent (mkState ns (edges st ++ es) (nodeId st + 1)).
Proof.
  intros He [Hnd Hlt]. unfold singleParent. simpl.
  rewrite structuralTargets_app, He, app_nil_r. split; [exact Hnd|].
  eapply Forall_impl; [|exact Hlt]. intros x (j & Hj & ->).
  exists j. split; [lia|reflexivity].
Qed.

Lemma singleParent_node st s p : singleParent st -> singleParent (withNode st s p).
Proof.
  intros H. unfold withNode. destruct p as [[|c f]|]; simpl parentLink.
  - now apply singleParent_keep.
  - now apply singleParent_add.
  - now apply singleParent_keep.
Qed.

Lemma singleParent_edge st s f :
  singleParent st ->
  singleParent
    (mkState (nodes st ++ [mkNode (nodeName (nodeId st)) (sanitizeLabel s)])
             (edges st ++ [mkEdge f (Some (nodeName (nodeId st))) None])
             (nodeId st + 1)).
Proof. now apply singleParent_add. Qed.

Lemma singleParent_branch st f t c :
  singleParent st ->
  singleParent (mkState (nodes st) (edges st ++ [mkEdge f t (Some c)])
                        (nodeId st)).
Proof.
  intros [Hnd Hlt]. unfold singleParent. simpl.
  rewrite structuralTargets_app. simpl. rewrite app_nil_r. now split.
Qed.

(** X2. No node gets two structural edges: from a state in which the
    edges without a [condition] have distinct targets, each the id of a
    node created so far, the traversal, in both variants, returns such a
    state. *)
Theorem one_structural_edge_per_node ast parentNodeId st r st' :
  singleParent st ->
  Ltm.traverseNode ast parentNodeId st = Ok (r, st')
  \/ Part000.traverseNode ast parentNodeId st = Ok (r, st') ->
  NoDup (structuralTargets (edges st'))
  /\ Forall (fun t => exists j, j < nodeId st' /\ t = nodeName j)
            (structuralTargets (edges st')).
Proof.
  intros HJ [H|H].
  - exact (ltm_traverse_preserves singleParent singleParent_node
             singleParent_edge singleParent_branch _ _ _ _ _ HJ H).
  - exact (part000_traverse_preserves singleParent singleParent_node
             singleParent_branch _ _ _ _ _ HJ H).
Qed.

Lemma one_structural_edge_per_node_witness :
  NoDup (structuralTargets
           [mkEdge (nodeName 0) (Some (nodeName 1)) None;
            mkEdge (nodeName 0) (Some (nodeName 2)) None;
            mkEdge (nodeName 0) None (Some (js "No"))]).
Proof.
  refine (proj1 (one_structural_edge_per_node
                   (chunk [ifElseStatement (identifier "x")]) None
                   initialState None
                   (mkState [mkNode (nodeName 0) (js "if undefined");
                             mkNode (nodeName 1) (js "return 1");
                             mkNode (nodeName 2) (js "return 2")]
                            [mkEdge (nodeName 0) (Some (nodeName 1)) None;
                             mkEdge (nodeName 0) (Some (nodeName 2)) None;
                             mkEdge (nodeName 0) None (Some (js "No"))] 3)
                   _ _)).
  - split; constructor.
  - left. vm_compute. reflexivity.
Defined.

(** ** Edges between existing nodes *)

Lemma idBelow_le b b' i : b <= b' -> idBelow b i -> idBelow b' i.
Proof. intros Hb (j & Hj & ->). exists j. split; [lia|reflexivity]. Qed.

Lemma parentBelow_le b b' p : b <= b' -> parentBelow b p -> parentBelow b' p.
Proof. destruct p as [[|c p]|]; simpl; eauto using idBelow_le. Qed.

Lemma linkedEdge_le b b' e : b <= b' -> linkedEdge b e -> linkedEdge b' e.
Proof.
  intros Hb [Hf Ht]. split; [eauto using idBelow_le|].
  destruct (to e); eauto using idBelow_le.
Qed.

Lemma links_ret {A} b (a : A) (Q : A -> nat -> Prop) :
  Q a b -> links b (ret a) Q.
Proof.
  intros HQ st a' st' Hb HL H. inversion H; subst. split; [exact HL|].
  exists b. auto.
Qed.

Lemma links_throw {A} b e (Q : A -> nat -> Prop) : links b (throw e) Q.
Proof. intros st a st' _ _ H. discriminate. Qed.

Lemma links_bind {A B} b (m : M A) (f : A -> M B) Q1 Q2 :
  links b m Q1 ->
  (forall a b', b <= b' -> Q1 a b' -> links b' (f a) Q2) ->
  links b (bind m f) Q2.
Proof.
  intros Hm Hf st c st' Hb HL H. apply bind_ok in H.
  destruct H as (a & st1 & H1 & H2).
  destruct (Hm _ _ _ Hb HL H1) as (HL1 & b1 & Hb1 & Hn1 & HQ1).
  destruct (Hf a b1 Hb1 HQ1 _ _ _ Hn1 HL1 H2) as (HL2 & b2 & Hb2 & Hn2 & HQ2).
  split; [exact HL2|]. exists b2. repeat split; auto. lia.
Qed.

Lemma links_pure {A} b (m : M A) : pure m -> links b m (fun _ _ => True).
Proof.
  intros Hp st a st' Hb HL H. apply Hp in H. subst. split; [exact HL|].
  exists b. auto.
Qed.

Lemma links_createNode b label :
  links b (createNode label) (fun i b' => idBelow b' i).
Proof.
  intros st i st' Hb HL H. unfold createNode in H.
  destruct label; try discriminate. inversion H; subst; clear H. split.
  - unfold linked in *. simpl. eapply Forall_impl; [|exact HL].
    intros e. apply linkedEdge_le. lia.
  - exists (nodeId st + 1). simpl. repeat split; try lia.
    exists (nodeId st). split; [lia|reflexivity].
Qed.

Lemma links_pushEdge b e :
  linkedEdge b e -> links b (pushEdge e) (fun _ _ => True).
Proof.
  intros He st a st' Hb HL H. inversion H; subst; clear H. split.
  - unfold linked in *. simpl. apply Forall_app. split; [exact HL|].
    constructor; [|constructor]. eapply linkedEdge_le; eauto.
  - exists b. auto.
Qed.

Lemma links_linkParent b p i :
  parentBelow b p -> idBelow b i ->
  links b (linkParent p i) (fun _ _ => True).
Proof.
  intros Hp Hi. destruct p as [[|c p]|]; simpl;
    try (apply links_ret; exact I).
  apply links_pushEdge. split; assumption.
Qed.

Lemma links_forEach_in {A} b (f : A -> nat -> M unit) l :
  (forall x, In x l -> forall i b', b <= b' ->
     links b' (f x i) (fun _ _ => True)) ->
  forall i, links b (forEach f l i) (fun _ _ => True).
Proof.
  revert b. induction l as [|x rest IH]; intros b Hf i; simpl.
  - apply links_ret. exact I.
  - eapply links_bind; [apply (Hf x (or_introl eq_refl) i b (le_n _))|].
    intros _ b' Hb' _. apply IH. intros y Hy j b'' Hb''.
    apply Hf; [now right | lia].
Qed.

Lemma links_bind_throw {A B} b e (f : A -> M B) Q :
  links b (bind (throw e) f) Q.
Proof. intros st a st' _ _ H. discriminate. Qed.

Ltac below :=
  cbv beta;
  match goal with
  | |- _ <= _ => lia
  | |- idBelow _ _ => eapply idBelow_le; [|eassumption]; lia
  | |- parentBelow _ (Some ?i) =>
      match goal with
      | H : idBelow _ i |- _ =>
          let j := fresh "j" in
          let Hj := fresh "Hj" in
          destruct H as (j & Hj & ->); simpl;
          exists j; split; [lia | reflexivity]
      end
  | |- parentBelow _ _ => eapply parentBelow_le; [|eassumption]; lia
  | |- resultBelow _ None => exact I
  | |- resultBelow _ (Some _) => simpl; eapply idBelow_le; [|eassumption]; lia
  | |- match ?r with Some _ => _ | None => _ end =>
      destruct r; simpl in *;
      [eapply idBelow_le; [|eassumption]; lia | discriminate]
  | |- True => exact I
  end.

Ltac links_step IH :=
  match goal with
  | |- links _ (bind (createNode _) _) _ =>
      eapply links_bind; [apply links_createNode | intros ? ? ? ?; cbv beta in *]
  | |- links _ (bind (linkParent _ _) _) _ =>
      eapply links_bind; [apply links_linkParent; below | intros ? ? ? _]
  | |- links _ (bind (pushEdge _) _) _ =>
      eapply links_bind;
        [apply links_pushEdge; split; simpl; below | intros ? ? ? _]
  | |- links _ (bind (Ltm.traverseNode _ _) _) _ =>
      eapply links_bind;
        [apply IH; [solve [eauto with desc_db] | below] | intros ? ? ? ?; cbv beta in *]
  | |- links _ (bind (Part000.traverseNode _ _) _) _ =>
      eapply links_bind;
        [apply IH; [solve [eauto with desc_db] | below] | intros ? ? ? ?; cbv beta in *]
  | |- links _ (bind (forEach _ _ _) _) _ =>
      eapply links_bind;
        [apply links_forEach_in; intros ? ? ? ? ? | intros ? ? ? _]
  | |- links _ (bind (match ?v with _ => _ end) _) _ =>
      destruct v eqn:?
  | |- links _ (bind (if ?c then _ else _) _) _ =>
      destruct c eqn:?
  | |- links _ (bind (throw _) _) _ =>
      apply links_bind_throw
  | |- links _ (bind _ _) _ =>
      eapply links_bind;
        [apply links_pure; solve [auto 10 with pure_db] | intros ? ? ? _]
  | |- links _ (if ?c then _ else _) _ => destruct c eqn:?
  | |- links _ (match ?v with _ => _ end) _ => destruct v eqn:?
  | |- links _ (ret _) _ => apply links_ret; below
  | |- links _ (throw _) _ => apply links_throw
  | |- links _ (pushEdge _) _ =>
      apply links_pushEdge; split; simpl; below
  end.

Lemma ltm_traverse_links node :
  forall parentNodeId b,
    parentBelow b parentNodeId ->
    links b (Ltm.traverseNode node parentNodeId)
          (fun r b' => resultBelow b' r).
Proof.
  induction node as [node IH] using (well_founded_induction descendant_wf).
  intros p b Hp. destruct node as [| | s | items | get]; simpl;
    repeat links_step IH.
Qed.

Lemma part000_traverse_links node :
  forall parentNodeId b,
    parentBelow b parentNodeId ->
    links b (Part000.traverseNode node parentNodeId)
          (fun r b' => resultBelow b' r).
Proof.
  induction node as [node IH] using (well_founded_induction descendant_wf).
  intros p b Hp. destruct node as [| | s | items | get]; simpl;
    repeat links_step IH.
Qed.

Lemma idBelow_listed st i :
  numbered st -> idBelow (nodeId st) i -> In i (map id (nodes st)).
Proof.
  intros [Hm _] (j & Hj & ->). rewrite Hm. apply in_map, in_seq. lia.
Qed.

(** X3. Apart from the [null] targets of branch edges, edges join listed
    nodes: from a numbered state whose edges are linked, with a parent
    that is the id of a node, the traversal, in both variants, returns a
    state in which the source of every edge is the id of a listed node,
    and so is its target, unless the target is [null], which only an edge
    with a [condition] has; an id it returns is the id of a listed
    node. *)
Theorem edges_stay_linked ast parentNodeId st r st' :
  numbered st -> linked st -> parentBelow (nodeId st) parentNodeId ->
  Ltm.traverseNode ast parentNodeId st = Ok (r, st')
  \/ Part000.traverseNode ast parentNodeId st = Ok (r, st') ->
  Forall (fun e =>
            In (from e) (map id (nodes st'))
            /\ match to e with
               | Some t => In t (map id (nodes st'))
               | None => condition e <> None
               end) (edges st')
  /\ match r with
     | Some i => In i (map id (nodes st'))
     | None => True
     end.
Proof.
  intros Hnum HL Hp H.
  assert (G : grows 0 st st'
              /\ linked st'
              /\ exists b', b' <= nodeId st' /\ resultBelow b' r).
  { destruct H as [H|H].
    - split.
      + now apply (ltm_traverse_grows ast parentNodeId 0 st r st'
                     (Nat.le_0_l _)).
      + destruct (ltm_traverse_links ast parentNodeId (nodeId st) Hp
                    st r st' (le_n _) HL H) as (HL' & b' & _ & Hb' & Hr).
        eauto.
    - split.
      + now apply (part000_traverse_grows ast parentNodeId 0 st r st'
                     (Nat.le_0_l _)).
      + destruct (part000_traverse_links ast parentNodeId (nodeId st) Hp
                    st r st' (le_n _) HL H) as (HL' & b' & _ & Hb' & Hr).
        eauto. }
  destruct G as (G & HL' & b' & Hb' & Hr).
  pose proof (grows_numbered _ _ _ Hnum G) as Hnum'.
  split.
  - eapply Forall_impl; [|exact HL']. intros e [Hf Ht]. split.
    + now apply idBelow_listed.
    + destruct (to e); [now apply idBelow_listed | exact Ht].
  - destruct r as [i|]; [|exact I].
    apply idBelow_listed; [exact Hnum'|]. eapply idBelow_le; eauto.
Qed.

Lemma edges_stay_linked_witness :
  let ns := [mkNode (nodeName 0) (js "if undefined");
             mkNode (nodeName 1) (js "return 1");
             mkNode (nodeName 2) (js "return 2")] in
  Forall (fun e =>
            In (from e) (map id ns)
            /\ match to e with
               | Some t => In t (map id ns)
               | None => condition e <> None
               end)
         [mkEdge (nodeName 0) (Some (nodeName 1)) None;
          mkEdge (nodeName 0) (Some (nodeName 2)) None;
          mkEdge (nodeName 0) None (Some (js "No"))].
Proof.
  intros ns.
  refine (proj1 (edges_stay_linked
                   (chunk [ifElseStatement (identifier "x")]) None
                   initialState None
                   (mkState ns
                            [mkEdge (nodeName 0) (Some (nodeName 1)) None;
                             mkEdge (nodeName 0) (Some (nodeName 2)) None;
                             mkEdge (nodeName 0) None (Some (js "No"))] 3)
                   _ _ _ _)).
  - split; reflexivity.
  - constructor.
  - exact I.
  - left. vm_compute. reflexivity.
Defined.

(** ** The id a call returns *)

Lemma constantly_ret {A} (v : A) : constantly v (ret v).
Proof. intros st r st' H. now inversion H. Qed.

Lemma constantly_bind {A B} (v : B) (m : M A) (f : A -> M B) :
  (forall a, constantly v (f a)) -> constantly v (bind m f).
Proof.
  intros Hf st r st' H. apply bind_ok in H.
  destruct H as (a & st1 & _ & H). eapply Hf, H.
Qed.

Lemma rooted_pure_bind {A} p (m : M A) f :
  pure m -> (forall a, rooted p (f a)) -> rooted p (bind m f).
Proof.
  intros Hp Hf st r st' H. apply bind_ok in H.
  destruct H as (a & st1 & H1 & H2). apply Hp in H1. subst st1.
  eapply Hf, H2.
Qed.

Lemma rooted_create_link label p (k : jsstring -> M (option jsstring)) :
  (forall i, constantly (Some i) (k i)) ->
  (forall j, 0 <= j -> hoare 0 (fun _ => True) (k (nodeName j))) ->
  rooted p (bind (createNode label)
                 (fun i => bind (linkParent p i) (fun _ => k i))).
Proof.
  intros Hc Hg st r st' H.
  destruct label as [| |s| |]; try discriminate.
  rewrite create_link_eq in H.
  split; [eapply Hc, H|].
  destruct (Hg _ (Nat.le_0_l _) _ _ _ (Nat.le_0_l _) H)
    as [(ns & es & Hn & He & _) _].
  simpl in Hn, He. rewrite <- app_assoc in Hn, He. simpl in Hn.
  eauto.
Qed.

Ltac constantly_tac :=
  repeat first [ apply constantly_ret
               | apply constantly_bind; intros ? ].

Ltac rooted_step L :=
  match goal with
  | |- rooted _ (bind (createNode _) _) =>
      apply rooted_create_link;
        [ intros ?; constantly_tac | intros ? ?; repeat hoare_step L ]
  | |- rooted _ (bind (if ?c then _ else _) _) => destruct c eqn:?
  | |- rooted _ (bind _ _) =>
      apply rooted_pure_bind; [solve [auto 10 with pure_db] | intros ?]
  end.

(** X4. On a node object that is not a [Chunk], [traverseNode], in both
    variants, returns the id the counter stood at when it was called; the
    node of that id is the first node it appended, before the nodes of its
    children, and the first edge it appended is the link from its parent,
    when it was given one. *)
Theorem root_id_returned get parentNodeId st r st' :
  strictEq (get "type"%string) "Chunk" = false ->
  Ltm.traverseNode (VObject get) parentNodeId st = Ok (r, st')
  \/ Part000.traverseNode (VObject get) parentNodeId st = Ok (r, st') ->
  r = Some (nodeName (nodeId st))
  /\ exists l rest moreEdges,
       nodes st' = nodes st ++ mkNode (nodeName (nodeId st)) l :: rest
       /\ edges st'
          = edges st ++ parentLink parentNodeId (nodeName (nodeId st))
            ++ moreEdges.
Proof.
  intros Hchunk [H|H]; revert st r st' H.
  - change (rooted parentNodeId
              (Ltm.traverseNode (VObject get) parentNodeId)).
    cbn [Ltm.traverseNode]. rewrite Hchunk.
    repeat match goal with
           | |- rooted _ (if ?c then _ else _) => destruct c eqn:?
           end;
      repeat rooted_step ltm_traverse_grows.
  - change (rooted parentNodeId
              (Part000.traverseNode (VObject get) parentNodeId)).
    cbn [Part000.traverseNode]. rewrite Hchunk.
    repeat match goal with
           | |- rooted _ (if ?c then _ else _) => destruct c eqn:?
           end;
      repeat rooted_step part000_traverse_grows.
Qed.

Lemma root_id_returned_witness :
  exists l rest moreEdges,
    [mkNode (nodeName 1) (js "repeat"); mkNode (nodeName 2) (js "return 2");
     mkNode (nodeName 3) (js "until 1")]
    = [] ++ mkNode (nodeName 1) l :: rest
    /\ [mkEdge (nodeName 0) (Some (nodeName 1)) None;
        mkEdge (nodeName 1) (Some (nodeName 2)) None;
        mkEdge (nodeName 1) (Some (nodeName 3)) None]
       = [] ++ parentLink (Some (nodeName 0)) (nodeName 1) ++ moreEdges.
Proof.
  refine (proj2 (root_id_returned
                   (lookup [("type", str "RepeatStatement");
                            ("condition", numericLiteral "1");
                            ("body",
                             VArray [returnStatement [numericLiteral "2"]])
                           ]%string)
                   (Some (nodeName 0)) (mkState [] [] 1) (Some (nodeName 1))
                   (mkState [mkNode (nodeName 1) (js "repeat");
                             mkNode (nodeName 2) (js "return 2");
                             mkNode (nodeName 3) (js "until 1")]
                            [mkEdge (nodeName 0) (Some (nodeName 1)) None;
                             mkEdge (nodeName 1) (Some (nodeName 2)) None;
                             mkEdge (nodeName 1) (Some (nodeName 3)) None] 4)
                   _ _)).
  - reflexivity.
  - left. vm_compute. reflexivity.
Defined.

(** ** Values without a kind, and kinds without a case *)

Lemma strictEq_not_string v lit : (forall s, v <> VString s) -> strictEq v lit = false.
Proof. destruct v; simpl; try reflexivity. intros H. now elim (H s). Qed.

Lemma createNode_not_string {A} v (k : jsstring -> M A) st :
  (forall s, v <> VString s) -> bind (createNode v) k st = Throw TypeError.
Proof.
  intros H. unfold bind, createNode. destruct v; try reflexivity.
  now elim (H s).
Qed.

(** X5. [traverseNode], in both variants, throws a [TypeError] on
    [undefined], on [null], on a string, and on an object whose [type] is
    missing or is not a string. *)
Theorem untyped_node_throws node parentNodeId st :
  untyped node ->
  Ltm.traverseNode node parentNodeId st = Throw TypeError
  /\ Part000.traverseNode node parentNodeId st = Throw TypeError.
Proof.
  destruct node as [| | s | items | get]; simpl; intros H;
    try (split; reflexivity); try contradiction.
  rewrite !(strictEq_not_string _ _ H).
  split; apply createNode_not_string, H.
Qed.

Lemma strictEq_other t k : t <> js k -> strictEq (VString t) k = false.
Proof.
  intros H. simpl. destruct (jsstring_eqb t (js k)) eqn:E; [|reflexivity].
  apply jsstring_eqb_eq in E. contradiction.
Qed.

(** X6. A node whose [type] is a string that no [case] of the [switch]
    names is never rejected: the traversal returns, having appended one
    node labelled with the sanitized type and the link from the parent,
    whatever else the node holds. *)
Theorem unrecognized_kind_is_one_node get t parentNodeId st :
  get "type"%string = VString t ->
  (~ In t (map js ltmKinds) ->
   Ltm.traverseNode (VObject get) parentNodeId st
   = Ok (Some (nodeName (nodeId st)), withNode st t parentNodeId))
  /\ (~ In t (map js part000Kinds) ->
      Part000.traverseNode (VObject get) parentNodeId st
      = Ok (Some (nodeName (nodeId st)), withNode st t parentNodeId)).
Proof.
  intros Htype. split; intros Hin.
  - cbn [Ltm.traverseNode]. rewrite Htype.
    rewrite !strictEq_other
      by (intros E; apply Hin; rewrite E; simpl; auto 20).
    now rewrite create_link_eq.
  - cbn [Part000.traverseNode]. rewrite Htype.
    rewrite !strictEq_other
      by (intros E; apply Hin; rewrite E; simpl; auto 20).
    now rewrite create_link_eq.
Qed.

Lemma untyped_node_throws_witness :
  Ltm.traverseNode (obj [("body", VArray [])]%string) None initialState
  = Throw TypeError.
Proof.
  refine (proj1 (untyped_node_throws (obj [("body", VArray [])]%string)
                   None initialState _)).
  intros s. discriminate.
Defined.

Lemma unrecognized_kind_is_one_node_witness :
  Ltm.traverseNode
    (obj [("type", str "FooBarStatement"); ("body", VArray [VNull])]%string)
    (Some (nodeName 7)) (mkState [] [] 8)
  = Ok (Some (nodeName 8),
        withNode (mkState [] [] 8) (js "FooBarStatement")
                 (Some (nodeName 7))).
Proof.
  refine (proj1 (unrecognized_kind_is_one_node
                   (lookup [("type", str "FooBarStatement");
                            ("body", VArray [VNull])]%string)
                   (js "FooBarStatement") (Some (nodeName 7))
                   (mkState [] [] 8) eq_refl) _).
  vm_compute. intros H.
  repeat (destruct H as [H|H]; [discriminate H|]). exact H.
Defined.

(** ** Terminal kinds *)

Lemma leaf_pure_bind {A} p (m : M A) f :
  pure m -> (forall a, leaf p (f a)) -> leaf p (bind m f).
Proof.
  intros Hp Hf st r st' H. apply bind_ok in H.
  destruct H as (a & st1 & H1 & H2). apply Hp in H1. subst st1.
  eapply Hf, H2.
Qed.

Lemma leaf_create_link label p :
  leaf p (bind (createNode label)
               (fun i => bind (linkParent p i) (fun _ => ret (Some i)))).
Proof.
  intros st r st' H. destruct label as [| |s| |]; try discriminate.
  rewrite create_link_eq in H. inversion H; subst. eauto.
Qed.

Ltac leaf_step :=
  match goal with
  | |- leaf _ (if ?c then _ else _) => destruct c eqn:?
  | |- leaf _ (bind (createNode _) _) => apply leaf_create_link
  | |- leaf _ (bind _ _) =>
      apply leaf_pure_bind; [solve [auto 10 with pure_db] | intros ?]
  end.

Ltac not_container Hin :=
  apply strictEq_other; intros E; apply Hin; rewrite E; simpl; auto 20.

(** X7. A node whose [type] is a string other than the kinds that carry a
    body is terminal: whenever its traversal returns, in either variant,
    it has appended exactly one node and the link from the parent, and
    nothing else, and returns the id of that node; a [body] or [clauses]
    property of such a node is never traversed. *)
Theorem terminal_kinds_add_one_node get t parentNodeId st r st' :
  get "type"%string = VString t ->
  ~ In t (map js containerKinds) ->
  Ltm.traverseNode (VObject get) parentNodeId st = Ok (r, st')
  \/ Part000.traverseNode (VObject get) parentNodeId st = Ok (r, st') ->
  r = Some (nodeName (nodeId st))
  /\ exists l, st' = withNode st l parentNodeId.
Proof.
  intros Htype Hin.
  assert (K1 : strictEq (VString t) "Chunk" = false) by not_container Hin.
  assert (K2 : strictEq (VString t) "IfStatement" = false)
    by not_container Hin.
  assert (K3 : strictEq (VString t) "WhileStatement" = false)
    by not_container Hin.
  assert (K4 : strictEq (VString t) "RepeatStatement" = false)
    by not_container Hin.
  assert (K5 : strictEq (VString t) "ForNumericStatement" = false)
    by not_container Hin.
  assert (K6 : strictEq (VString t) "ForGenericStatement" = false)
    by not_container Hin.
  assert (K7 : strictEq (VString t) "FunctionDeclaration" = false)
    by not_container Hin.
  intros [H|H]; revert st r st' H.
  - change (leaf parentNodeId (Ltm.traverseNode (VObject get) parentNodeId)).
    cbn [Ltm.traverseNode]. rewrite Htype, K1, K2, K3, K4, K5, K6, K7.
    repeat leaf_step.
  - change (leaf parentNodeId
              (Part000.traverseNode (VObject get) parentNodeId)).
    cbn [Part000.traverseNode]. rewrite Htype, K1, K2, K3, K5, K7.
    repeat leaf_step.
Qed.

Lemma terminal_kinds_add_one_node_witness :
  exists l,
    mkState [mkNode (nodeName 0) (js "return 1")] [] 1
    = withNode initialState l None.
Proof.
  refine (proj2 (terminal_kinds_add_one_node
                   (lookup [("type", str "ReturnStatement");
                            ("arguments", VArray [numericLiteral "1"]);
                            ("body", VArray [returnStatement []])]%string)
                   (js "ReturnStatement") None initialState
                   (Some (nodeName 0))
                   (mkState [mkNode (nodeName 0) (js "return 1")] [] 1)
                   eq_refl _ _)).
  - vm_compute. intros H.
    repeat (destruct H as [H|H]; [discriminate H|]). exact H.
  - left. vm_compute. reflexivity.
Defined.

(** ** Statement sequences *)

Lemma bind_ext {A B} (m : M A) (f g : A -> M B) st :
  (forall a s, f a s = g a s) -> bind m f st = bind m g st.
Proof. intros H. unfold bind. destruct (m st) as [[a st1]|e]; auto. Qed.

Lemma forEach_shift {A} (g : A -> M unit) l i j st :
  forEach (fun x _ => g x) l i st = forEach (fun x _ => g x) l j st.
Proof.
  revert i j st. induction l as [|x rest IH]; intros i j st; [reflexivity|].
  rewrite !forEach_cons. apply bind_ext. intros _ s. apply IH.
Qed.

Lemma forEach_app {A} (g : A -> M unit) l1 l2 i st :
  forEach (fun x _ => g x) (l1 ++ l2) i st
  = bind (forEach (fun x _ => g x) l1 i)
         (fun _ => forEach (fun x _ => g x) l2 i) st.
Proof.
  revert i st. induction l1 as [|x rest IH]; intros i st.
  - reflexivity.
  - simpl app. rewrite !forEach_cons, bind_assoc. apply bind_ext.
    intros _ s. rewrite IH. apply bind_ext. intros _ s'. apply forEach_shift.
Qed.

Section Sequences.

Variable traverse : value -> option jsstring -> M (option jsstring).

Hypothesis traverse_array :
  forall items p,
    traverse (VArray items) p
    = (forEach (fun childNode _ => traverse childNode p ;; ret tt) items 0 ;;
       ret None).

Lemma array_append l1 l2 p st :
  traverse (VArray (l1 ++ l2)) p st
  = bind (traverse (VArray l1) p) (fun _ => traverse (VArray l2) p) st.
Proof.
  rewrite !traverse_array. unfold bind at 1. rewrite forEach_app.
  unfold bind, ret.
  destruct (forEach _ l1 0 st) as [[u s1]|e]; reflexivity.
Qed.

Lemma array_singleton x p st :
  traverse (VArray [x]) p st = bind (traverse x p) (fun _ => ret None) st.
Proof.
  rewrite traverse_array, forEach_cons. unfold bind, ret. simpl.
  destruct (traverse x p st) as [[r s]|e]; reflexivity.
Qed.

Lemma array_nested l rest p st :
  traverse (VArray (VArray l :: rest)) p st
  = traverse (VArray (l ++ rest)) p st.
Proof.
  change (VArray l :: rest) with ([VArray l] ++ rest).
  rewrite !array_append. unfold bind at 1. rewrite array_singleton.
  unfold bind, ret.
  destruct (traverse (VArray l) p st) as [[r s]|e]; reflexivity.
Qed.

End Sequences.

(** X8. Statement sequences compose, in both variants: traversing the
    concatenation of two arrays is traversing the first and then the
    second; an array nested in an array is traversed as if its items were
    spliced in; and a [Chunk] is traversed as its [body] array is, with
    the same parent. *)
Theorem sequences_compose traverse parentNodeId st :
  traverse = Ltm.traverseNode \/ traverse = Part000.traverseNode ->
  (forall l1 l2,
      traverse (VArray (l1 ++ l2)) parentNodeId st
      = bind (traverse (VArray l1) parentNodeId)
             (fun _ => traverse (VArray l2) parentNodeId) st)
  /\ (forall l rest,
        traverse (VArray (VArray l :: rest)) parentNodeId st
        = traverse (VArray (l ++ rest)) parentNodeId st)
  /\ (forall get body,
        strictEq (get "type"%string) "Chunk" = true ->
        get "body"%string = VArray body ->
        traverse (VObject get) parentNodeId st
        = traverse (VArray body) parentNodeId st).
Proof.
  intros [->| ->]; repeat split.
  - intros. now apply array_append.
  - intros. now apply array_nested.
  - intros get body H Hbody. switch_case H. rewrite Hbody. reflexivity.
  - intros. now apply array_append.
  - intros. now apply array_nested.
  - intros get body H Hbody. switch_case H. rewrite Hbody. reflexivity.
Qed.

Lemma sequences_compose_witness :
  Ltm.traverseNode
    (VArray ([returnStatement [numericLiteral "1"]]
             ++ [returnStatement [numericLiteral "2"]])) None initialState
  = bind (Ltm.traverseNode (VArray [returnStatement [numericLiteral "1"]])
                           None)
         (fun _ =>
            Ltm.traverseNode (VArray [returnStatement [numericLiteral "2"]])
                             None) initialState.
Proof.
  apply (proj1 (sequences_compose Ltm.traverseNode None initialState
                  (or_introl eq_refl))).
Defined.

(** ** The two files compared *)

Lemma unchanged_items items :
  unchanged (VArray items) -> Forall unchanged items.
Proof.
  induction items as [|x rest IH]; simpl; intros H; constructor; tauto.
Qed.

Lemma bind_cong {A B} (m m' : M A) (f g : A -> M B) st :
  m st = m' st -> (forall a s, f a s = g a s) -> bind m f st = bind m' g st.
Proof.
  intros Hm Hf. unfold bind. rewrite Hm.
  destruct (m' st) as [[a s]|e]; auto.
Qed.

Lemma forEach_ext_in {A} (f g : A -> nat -> M unit) l :
  (forall x, In x l -> forall i s, f x i s = g x i s) ->
  forall i s, forEach f l i s = forEach g l i s.
Proof.
  induction l as [|x rest IH]; intros H i s; [reflexivity|].
  rewrite !forEach_cons. apply bind_cong.
  - apply H. now left.
  - intros _ s'. apply IH. intros y Hy. apply H. now right.
Qed.

Ltac agree_step IH :=
  match goal with
  | |- bind _ _ _ = bind _ _ _ => apply bind_cong; [| intros ? ?]
  | |- forEach _ ?l _ _ = forEach _ ?l _ _ =>
      apply forEach_ext_in; intros ? ? ? ?
  | |- (match ?v with _ => _ end) _ = (match ?v with _ => _ end) _ =>
      destruct v eqn:?
  | |- (if ?c then _ else _) _ = (if ?c then _ else _) _ => destruct c eqn:?
  | |- Ltm.traverseNode ?x ?p ?s = Part000.traverseNode ?x ?p ?s =>
      apply IH; [solve [eauto with desc_db] | solve [eauto]]
  | |- _ = _ => reflexivity
  end.

Lemma traversals_agree node :
  unchanged node ->
  forall parentNodeId st,
    Ltm.traverseNode node parentNodeId st
    = Part000.traverseNode node parentNodeId st.
Proof.
  induction node as [node IH] using (well_founded_induction descendant_wf).
  intros Hu p st. destruct node as [| | s | items | get].
  - reflexivity.
  - reflexivity.
  - reflexivity.
  - apply unchanged_items in Hu. rewrite Forall_forall in Hu.
    cbn [Ltm.traverseNode Part000.traverseNode].
    repeat agree_step IH.
  - destruct Hu as (Hk & Hbody & Hclauses).
    unfold noneOf in Hk. simpl in Hk.
    rewrite !andb_true_iff, !negb_true_iff in Hk.
    destruct Hk as (K1 & K2 & K3 & K4 & K5 & _).
    cbn [Ltm.traverseNode Part000.traverseNode].
    rewrite K1, K2, K3, K4, K5.
    assert (HB : forall body x,
               get "body"%string = VArray body -> In x body -> unchanged x).
    { intros body x E Hx. rewrite E in Hbody.
      apply unchanged_items in Hbody. rewrite Forall_forall in Hbody. auto. }
    assert (HC : forall clauses clause_get,
               get "clauses"%string = VArray clauses ->
               In (VObject clause_get) clauses ->
               unchanged (clause_get "body"%string)).
    { intros clauses cg E Hx. rewrite E in Hclauses.
      apply unchanged_items in Hclauses. rewrite Forall_forall in Hclauses.
      apply Hclauses in Hx. simpl in Hx. tauto. }
    repeat agree_step IH.
Qed.

(** X9. The two files agree wherever they did not change: on an AST in
    which no node reached through [body] and [clauses] is a
    [RepeatStatement], [ForNumericStatement], [ForGenericStatement],
    [TableConstructorExpression] or [LocalStatement], both [traverseNode]
    build the same graph or both throw, and [generateMermaid] of the
    earlier file returns the diagram of [ltm.js] inside its fence. *)
Theorem variants_agree_on_unchanged_kinds ast :
  unchanged ast ->
  (forall parentNodeId st,
      Ltm.traverseNode ast parentNodeId st
      = Part000.traverseNode ast parentNodeId st)
  /\ Part000.generateMermaid ast
     = match Ltm.generateMermaid ast with
       | Ok mermaidCode =>
           Ok (js "```mermaid" ++ newline ++ mermaidCode ++ js "```")
       | Throw e => Throw e
       end.
Proof.
  intros Hu. split; [apply traversals_agree, Hu|].
  unfold Part000.generateMermaid, Ltm.generateMermaid.
  rewrite <- (traversals_agree ast Hu).
  destruct (Ltm.traverseNode ast None initialState) as [[r st]|e];
    [|reflexivity].
  reflexivity.
Qed.

Lemma variants_agree_on_unchanged_kinds_witness :
  Part000.generateMermaid (chunk [ifElseStatement (identifier "x")])
  = match Ltm.generateMermaid (chunk [ifElseStatement (identifier "x")]) with
    | Ok mermaidCode =>
        Ok (js "```mermaid" ++ newline ++ mermaidCode ++ js "```")
    | Throw e => Throw e
    end.
Proof.
  refine (proj2 (variants_agree_on_unchanged_kinds
                   (chunk [ifElseStatement (identifier "x")]) _)).
  simpl. repeat split.
Defined.

(** ** The traversal and the lists it appends to *)

Lemma framed_ret {A} (a : A) : framed (ret a).
Proof. intros ns es st. reflexivity. Qed.

Lemma framed_throw {A} e : framed (@throw A e).
Proof. intros ns es st. reflexivity. Qed.

Lemma framed_bind {A B} (m : M A) (f : A -> M B) :
  framed m -> (forall a, framed (f a)) -> framed (bind m f).
Proof.
  intros Hm Hf ns es st. unfold bind. rewrite Hm.
  destruct (m st) as [[a st1]|e]; [apply Hf | reflexivity].
Qed.

Lemma framed_orThrow {A} (o : option A) : framed (orThrow o).
Proof. destruct o; [apply framed_ret | apply framed_throw]. Qed.

Lemma framed_prop v key : framed (prop v key).
Proof. apply framed_orThrow. Qed.

Lemma framed_index0 v : framed (index0 v).
Proof. apply framed_orThrow. Qed.

Lemma framed_interpolate v : framed (interpolate v).
Proof. apply framed_orThrow. Qed.

Lemma framed_joined sep items : framed (joined sep items).
Proof. apply framed_orThrow. Qed.

Lemma framed_mapM {A B} (f : A -> M B) l :
  (forall x, framed (f x)) -> framed (mapM f l).
Proof.
  intros Hf. induction l as [|x rest IH]; simpl.
  - apply framed_ret.
  - apply framed_bind; [apply Hf|]. intros y.
    apply framed_bind; [apply IH|]. intros ys. apply framed_ret.
Qed.

Lemma framed_arrayMap v f : (forall x, framed (f x)) -> framed (arrayMap v f).
Proof.
  intros Hf. destruct v; simpl; auto using framed_throw, framed_mapM.
Qed.

Lemma framed_createNode label : framed (createNode label).
Proof.
  intros ns es st. unfold createNode.
  destruct label; try reflexivity. unfold prepended. simpl.
  now rewrite <- app_assoc.
Qed.

Lemma framed_pushEdge e : framed (pushEdge e).
Proof.
  intros ns es st. unfold pushEdge, prepended. simpl. now rewrite <- app_assoc.
Qed.

Lemma framed_linkParent p i : framed (linkParent p i).
Proof.
  destruct p as [[|c p]|]; simpl;
    auto using framed_ret, framed_pushEdge.
Qed.

Lemma framed_forEach_in {A} (f : A -> nat -> M unit) l :
  (forall x, In x l -> forall i, framed (f x i)) ->
  forall i, framed (forEach f l i).
Proof.
  induction l as [|x rest IH]; intros Hf i.
  - apply framed_ret.
  - rewrite forEach_cons. apply framed_bind; [apply Hf; now left|].
    intros _. apply IH. intros y Hy. apply Hf. now right.
Qed.

Ltac framed_step IH :=
  match goal with
  | |- framed (bind _ _) => apply framed_bind; [| intros ?]
  | |- framed (if ?c then _ else _) => destruct c eqn:?
  | |- framed (match ?v with _ => _ end) => destruct v eqn:?
  | |- framed (forEach _ _ _) => apply framed_forEach_in; intros ? ? ?
  | |- framed (arrayMap _ _) => apply framed_arrayMap; intros ?
  | |- framed (ret _) => apply framed_ret
  | |- framed (throw _) => apply framed_throw
  | |- framed (prop _ _) => apply framed_prop
  | |- framed (index0 _) => apply framed_index0
  | |- framed (interpolate _) => apply framed_interpolate
  | |- framed (joined _ _) => apply framed_joined
  | |- framed (createNode _) => apply framed_createNode
  | |- framed (pushEdge _) => apply framed_pushEdge
  | |- framed (linkParent _ _) => apply framed_linkParent
  | |- framed _ => apply IH; solve [eauto with desc_db]
  end.

Lemma ltm_traverse_framed node :
  forall parentNodeId, framed (Ltm.traverseNode node parentNodeId).
Proof.
  induction node as [node IH] using (well_founded_induction descendant_wf).
  intros p. destruct node as [| | s | items | get]; simpl;
    repeat framed_step IH.
Qed.

Lemma part000_traverse_framed node :
  forall parentNodeId, framed (Part000.traverseNode node parentNodeId).
Proof.
  induction node as [node IH] using (well_founded_induction descendant_wf).
  intros p. destruct node as [| | s | items | get]; simpl;
    repeat framed_step IH.
Qed.

(** X10. The traversal never reads the node list or the edge list, in
    either variant: run from any lists with the counter at [n], it throws
    exactly when the run from the empty lists with the counter at [n]
    throws, and otherwise returns the same id and the given lists with
    the nodes and edges of that run put behind them. *)
Theorem traversal_ignores_existing_graph traverse ast parentNodeId ns es n :
  traverse = Ltm.traverseNode \/ traverse = Part000.traverseNode ->
  traverse ast parentNodeId (mkState ns es n)
  = match traverse ast parentNodeId (mkState [] [] n) with
    | Ok (r, st) =>
        Ok (r, mkState (ns ++ nodes st) (es ++ edges st) (nodeId st))
    | Throw e => Throw e
    end.
Proof.
  intros [->| ->].
  - pose proof (ltm_traverse_framed ast parentNodeId ns es (mkState [] [] n))
      as H.
    unfold prepended in H. simpl in H. rewrite !app_nil_r in H. exact H.
  - pose proof (part000_traverse_framed ast parentNodeId ns es
                  (mkState [] [] n)) as H.
    unfold prepended in H. simpl in H. rewrite !app_nil_r in H. exact H.
Qed.

Lemma traversal_ignores_existing_graph_witness :
  Ltm.traverseNode (returnStatement [numericLiteral "1"])
    (Some (nodeName 0))
    (mkState [mkNode (nodeName 0) (js "repeat")] [] 1)
  = match Ltm.traverseNode (returnStatement [numericLiteral "1"])
            (Some (nodeName 0)) (mkState [] [] 1) with
    | Ok (r, st) =>
        Ok (r, mkState ([mkNode (nodeName 0) (js "repeat")] ++ nodes st)
                       ([] ++ edges st) (nodeId st))
    | Throw e => Throw e
    end.
Proof.
  apply (traversal_ignores_existing_graph Ltm.traverseNode).
  left. reflexivity.
Defined.

(** ** The lines of the diagram *)

Lemma lineFeeds_app a b : lineFeeds (a ++ b) = lineFeeds a + lineFeeds b.
Proof. apply count_occ_app. Qed.

Lemma lineFeeds_class s : inClass s -> lineFeeds s = 0.
Proof.
  unfold lineFeeds. induction 1 as [|c s Hc _ IH]; [reflexivity|].
  simpl. destruct (N.eq_dec c 10) as [->|_]; [discriminate Hc | exact IH].
Qed.

Lemma digits_in_class d :
  inClass (js (NilEmpty.string_of_uint d)).
Proof.
  induction d; simpl; try constructor; try reflexivity; assumption.
Qed.

Lemma nodeName_in_class j : inClass (nodeName j).
Proof.
  unfold nodeName. apply Forall_app. split.
  - repeat constructor.
  - apply digits_in_class.
Qed.

Lemma idBelow_in_class b i : idBelow b i -> inClass i.
Proof. intros (j & _ & ->). apply nodeName_in_class. Qed.

Lemma renderNode_lineFeeds n :
  inClass (id n) -> inClass (label n) -> lineFeeds (renderNode n) = 1.
Proof.
  intros Hi Hl. unfold renderNode. rewrite !lineFeeds_app.
  rewrite (lineFeeds_class _ Hi), (lineFeeds_class _ Hl). reflexivity.
Qed.

Lemma renderEdge_lineFeeds b e :
  linkedEdge b e -> lineFeeds (renderEdge e) = 1.
Proof.
  intros [Hf Ht]. unfold renderEdge. rewrite !lineFeeds_app.
  rewrite (lineFeeds_class _ (idBelow_in_class _ _ Hf)).
  destruct (to e) as [t|].
  - rewrite (lineFeeds_class _ (idBelow_in_class _ _ Ht)). reflexivity.
  - reflexivity.
Qed.

Lemma concat_lineFeeds {A} (f : A -> jsstring) l :
  Forall (fun x => lineFeeds (f x) = 1) l ->
  lineFeeds (List.concat (map f l)) = length l.
Proof.
  induction 1 as [|x l Hx _ IH]; [reflexivity|].
  simpl. rewrite lineFeeds_app, Hx, IH. reflexivity.
Qed.

Lemma renderBody_lineFeeds st :
  numbered st -> classLabels st -> linked st ->
  lineFeeds (renderBody st) = length (nodes st) + length (edges st).
Proof.
  intros [Hm _] Hc HL. unfold renderBody. rewrite lineFeeds_app. f_equal.
  - apply concat_lineFeeds. apply Forall_forall. intros n Hn.
    apply renderNode_lineFeeds.
    + assert (Hi : In (id n) (map id (nodes st))) by now apply in_map.
      rewrite Hm in Hi. apply in_map_iff in Hi. destruct Hi as (j & <- & _).
      apply nodeName_in_class.
    + unfold classLabels in Hc. rewrite Forall_forall in Hc. now apply Hc.
  - apply concat_lineFeeds. eapply Forall_impl; [|exact HL].
    intros e. apply renderEdge_lineFeeds.
Qed.

Lemma initial_run_invariants ast r st :
  Ltm.traverseNode ast None initialState = Ok (r, st)
  \/ Part000.traverseNode ast None initialState = Ok (r, st) ->
  numbered st /\ classLabels st /\ linked st.
Proof.
  assert (Hn : numbered initialState) by (split; reflexivity).
  assert (Hc : classLabels initialState) by constructor.
  assert (Hl : linked initialState) by constructor.
  intros [H|H]; repeat split.
  - apply (grows_numbered 0 _ _ Hn).
    now apply (ltm_traverse_grows ast None 0 _ r st (Nat.le_0_l _)).
  - apply (grows_numbered 0 _ _ Hn).
    now apply (ltm_traverse_grows ast None 0 _ r st (Nat.le_0_l _)).
  - exact (ltm_traverse_preserves classLabels classLabels_node
             classLabels_edge classLabels_branch _ _ _ _ _ Hc H).
  - now destruct (ltm_traverse_links ast None 0 I _ _ _ (Nat.le_0_l _)
                   Hl H).
  - apply (grows_numbered 0 _ _ Hn).
    now apply (part000_traverse_grows ast None 0 _ r st (Nat.le_0_l _)).
  - apply (grows_numbered 0 _ _ Hn).
    now apply (part000_traverse_grows ast None 0 _ r st (Nat.le_0_l _)).
  - exact (part000_traverse_preserves classLabels classLabels_node
             classLabels_branch _ _ _ _ _ Hc H).
  - now destruct (part000_traverse_links ast None 0 I _ _ _ (Nat.le_0_l _)
                   Hl H).
Qed.

(** X11. The diagram has one line for each node and each edge: when
    [generateMermaid] returns, its output holds as many line feeds as the
    header lines (one in [ltm.js], two in the earlier file, whose closing
    fence has none) plus the nodes and the edges of the traversal; no id
    and no label adds or removes a line. *)
Theorem output_has_a_line_per_node_and_edge ast out :
  (Ltm.generateMermaid ast = Ok out ->
   exists r st,
     Ltm.traverseNode ast None initialState = Ok (r, st)
     /\ lineFeeds out = 1 + length (nodes st) + length (edges st))
  /\ (Part000.generateMermaid ast = Ok out ->
      exists r st,
        Part000.traverseNode ast None initialState = Ok (r, st)
        /\ lineFeeds out = 2 + length (nodes st) + length (edges st)).
Proof.
  unfold Ltm.generateMermaid, Part000.generateMermaid. split; intros H.
  - destruct (Ltm.traverseNode ast None initialState) as [[r st]|e] eqn:E;
      [|discriminate].
    injection H as <-. exists r, st. split; [reflexivity|].
    destruct (initial_run_invariants ast r st (or_introl E))
      as (Hn & Hc & Hl).
    change (lineFeeds ((js "graph TD;" ++ newline) ++ renderBody st)
            = 1 + length (nodes st) + length (edges st)).
    rewrite lineFeeds_app, (renderBody_lineFeeds st Hn Hc Hl).
    reflexivity.
  - destruct (Part000.traverseNode ast None initialState) as [[r st]|e] eqn:E;
      [|discriminate].
    injection H as <-. exists r, st. split; [reflexivity|].
    destruct (initial_run_invariants ast r st (or_intror E))
      as (Hn & Hc & Hl).
    change (lineFeeds ((js "```mermaid" ++ newline ++ js "graph TD;"
                        ++ newline) ++ renderBody st ++ js "```")
            = 2 + length (nodes st) + length (edges st)).
    rewrite (lineFeeds_app (js "```mermaid" ++ newline ++ js "graph TD;"
                            ++ newline)),
            (lineFeeds_app (renderBody st)),
            (renderBody_lineFeeds st Hn Hc Hl).
    change (lineFeeds (js "```")) with 0.
    change (lineFeeds (js "```mermaid" ++ newline ++ js "graph TD;"
                       ++ newline)) with 2.
    lia.
Qed.

Lemma output_has_a_line_per_node_and_edge_witness :
  exists r st,
    Ltm.traverseNode (chunk [ifElseStatement (identifier "x")]) None
      initialState = Ok (r, st)
    /\ lineFeeds
         (js "graph TD;" ++ newline
          ++ renderBody
               (mkState [mkNode (nodeName 0) (js "if undefined");
                         mkNode (nodeName 1) (js "return 1");
                         mkNode (nodeName 2) (js "return 2")]
                        [mkEdge (nodeName 0) (Some (nodeName 1)) None;
                         mkEdge (nodeName 0) (Some (nodeName 2)) None;
                         mkEdge (nodeName 0) None (Some (js "No"))] 3))
       = 1 + length (nodes st) + length (edges st).
Proof.
  refine (proj1 (output_has_a_line_per_node_and_edge
                   (chunk [ifElseStatement (identifier "x")]) _) _).
  vm_compute. reflexivity.
Defined.

(** ** The failure paths of [main] *)

Lemma untyped_generate ast :
  untyped ast ->
  Ltm.generateMermaid ast = Throw TypeError
  /\ Part000.generateMermaid ast = Throw TypeError.
Proof.
  intros H. unfold Ltm.generateMermaid, Part000.generateMermaid.
  destruct ast as [| | s | items | get]; simpl in H |- *;
    try (split; reflexivity); try contradiction.
  rewrite !(strictEq_not_string _ _ H).
  rewrite !(createNode_not_string _ _ _ H). split; reflexivity.
Qed.

(** X12. [main] writes no file on its failure paths, in both variants.
    Without a path argument, or with the empty string, it only prints the
    usage message on the error stream and exits with status 1, whatever
    the parser would do.  When reading or parsing throws, or when the
    parser returns a value that is neither an array nor an object with a
    string [type], the exception is not caught and nothing is written.
    Each variant writes a file only when the parser returned an AST on
    which its own [generateMermaid] returned. *)
Theorem main_failure_paths parseLuaFile inputFilePath :
  let usage :=
    [ConsoleError (js "Please provide a Lua file path as an argument.");
     Exit 1] in
  (inputFilePath = None \/ inputFilePath = Some [] ->
   Ltm.main parseLuaFile inputFilePath = usage
   /\ Part000.main parseLuaFile inputFilePath = usage)
  /\ (forall c path,
        inputFilePath = Some (c :: path) ->
        parseLuaFile (c :: path) = None
        \/ (exists ast, parseLuaFile (c :: path) = Some ast /\ untyped ast) ->
        Ltm.main parseLuaFile inputFilePath = [Uncaught]
        /\ Part000.main parseLuaFile inputFilePath = [Uncaught])
  /\ (filesWritten (Ltm.main parseLuaFile inputFilePath) <> [] ->
      exists path ast mermaidCode,
        inputFilePath = Some path /\ path <> []
        /\ parseLuaFile path = Some ast
        /\ Ltm.generateMermaid ast = Ok mermaidCode)
  /\ (filesWritten (Part000.main parseLuaFile inputFilePath) <> [] ->
      exists path ast mermaidCode,
        inputFilePath = Some path /\ path <> []
        /\ parseLuaFile path = Some ast
        /\ Part000.generateMermaid ast = Ok mermaidCode).
Proof.
  intros usage. split; [|split; [|split]].
  - intros [-> | ->]; split; reflexivity.
  - intros c path -> H. unfold Ltm.main, Part000.main.
    destruct H as [-> | (ast & -> & Hu)]; [split; reflexivity|].
    rewrite (proj1 (untyped_generate ast Hu)).
    rewrite (proj2 (untyped_generate ast Hu)). split; reflexivity.
  - unfold Ltm.main.
    destruct inputFilePath as [[|c path]|]; try (intros H; now elim H).
    destruct (parseLuaFile (c :: path)) as [ast|] eqn:Hp;
      try (intros H; now elim H).
    destruct (Ltm.generateMermaid ast) as [code|e] eqn:E;
      try (intros H; now elim H).
    intros _. exists (c :: path), ast, code.
    repeat split; auto. discriminate.
  - unfold Part000.main.
    destruct inputFilePath as [[|c path]|]; try (intros H; now elim H).
    destruct (parseLuaFile (c :: path)) as [ast|] eqn:Hp;
      try (intros H; now elim H).
    destruct (Part000.generateMermaid ast) as [code|e] eqn:E;
      try (intros H; now elim H).
    intros _. exists (c :: path), ast, code.
    repeat split; auto. discriminate.
Qed.

Lemma main_failure_paths_witness :
  Ltm.main (fun _ => Some (obj [("body", VArray [])]%string))
           (Some (js "a.lua")) = [Uncaught].
Proof.
  refine (proj1 (proj1 (proj2 (main_failure_paths
                                 (fun _ => Some (obj [("body", VArray [])
                                                     ]%string))
                                 (Some (js "a.lua"))))
                       97%N (js ".lua") eq_refl _)).
  right. eexists. split; [reflexivity|]. intros s. discriminate.
Defined.

(** ** The fixed points of [sanitizeLabel] *)

(** X13. [sanitizeLabel] returns its argument unchanged exactly when every
    character of the argument is in the class; it works character by
    character, so the label of a concatenation is the concatenation of
    the labels, and the ids [node0], [node1], ... are among its fixed
    points. *)
Theorem sanitizeLabel_fixed_points s t :
  (sanitizeLabel s = s <-> inClass s)
  /\ sanitizeLabel (s ++ t) = sanitizeLabel s ++ sanitizeLabel t
  /\ (forall n, sanitizeLabel (nodeName n) = nodeName n).
Proof.
  assert (F : forall u, sanitizeLabel u = u <-> inClass u).
  { unfold sanitizeLabel, inClass. induction u as [|c u IH]; simpl.
    - split; [constructor | reflexivity].
    - split.
      + intros H. injection H as Hc Hu. constructor.
        * rewrite <- Hc. apply in_class_sanitized.
        * now apply IH.
      + intros H. inversion H as [|? ? Hc Hu]; subst.
        rewrite Hc. f_equal. now apply IH. }
  repeat split.
  - apply F.
  - apply F.
  - unfold sanitizeLabel. apply map_app.
  - intros n. apply F, nodeName_in_class.
Qed.

Lemma sanitizeLabel_fixed_points_witness :
  sanitizeLabel (js "while undefined") = js "while undefined".
Proof.
  apply (proj2 (proj1 (sanitizeLabel_fixed_points
                         (js "while undefined") []))).
  repeat constructor.
Defined.

(** ** The branch edges of array-bodied clauses *)

Section NullBranches.

Variable traverse : value -> option jsstring -> M (option jsstring).

Hypothesis traverse_grows :
  forall node parentNodeId k,
    hoare k (fun _ => True) (traverse node parentNodeId).

Hypothesis traverse_array_null :
  forall items p st r st',
    traverse (VArray items) p st = Ok (r, st') -> r = None.

Lemma ifClauses_branch_list n clauses :
  Forall arrayBodied clauses ->
  forall index st st',
    n < nodeId st ->
    ifClauses traverse (nodeName n) clauses index st = Ok (tt, st') ->
    exists es,
      edges st' = edges st ++ es
      /\ filter (isBranchFrom (nodeName n)) es
         = map (fun i => mkEdge (nodeName n) None (Some (branchLabel i)))
               (filter (fun i => 0 <? i) (seq index (length clauses))).
Proof.
  induction 1 as [|clause rest Hc _ IH]; intros index st st' Hn H.
  - inversion H; subst. exists []. now rewrite app_nil_r.
  - unfold ifClauses in H. rewrite forEach_cons in H.
    apply bind_ok in H. destruct H as ([] & st2 & Hstep & Hrest).
    fold (ifClauses traverse (nodeName n)) in Hrest.
    destruct Hc as (cg & items & -> & Hbody).
    unfold clauseStep in Hstep. rewrite Hbody in Hstep.
    apply bind_ok in Hstep. destruct Hstep as (cid & st1 & Htrav & Hpush).
    pose proof (traverse_array_null _ _ _ _ _ Htrav) as ->.
    destruct (traverse_grows _ _ (nodeId st) _ _ _ (le_n _) Htrav)
      as [(ns1 & es1 & _ & He1 & Hi1 & _ & Hb1) _].
    pose proof (branchFrom_filter n _ _ Hn Hb1) as Hf1.
    rewrite Nat.add_1_r in Hrest.
    simpl seq. simpl filter.
    destruct (0 <? index) eqn:Hidx.
    + inversion Hpush; subst st2; clear Hpush.
      apply IH in Hrest; [|simpl; lia]. destruct Hrest as (es2 & He2 & Hf2).
      simpl in He2. rewrite He1 in He2.
      eexists. split.
      * rewrite He2, <- !app_assoc. reflexivity.
      * rewrite !filter_app, Hf1. simpl. unfold isBranchFrom at 1. simpl.
        rewrite jsstring_eqb_refl. simpl. now rewrite Hf2.
    + inversion Hpush; subst st2; clear Hpush.
      apply IH in Hrest; [|lia]. destruct Hrest as (es2 & He2 & Hf2).
      rewrite He1 in He2.
      eexists. split.
      * rewrite He2, <- !app_assoc. reflexivity.
      * rewrite !filter_app, Hf1. simpl. exact Hf2.
Qed.

Hypothesis traverse_if :
  forall get p st,
    strictEq (get "type"%string) "IfStatement" = true ->
    traverse (VObject get) p st
    = match firstConditionText (get "clauses"%string) with
      | Some text =>
          (match get "clauses"%string with
           | VArray clauses =>
               ifClauses traverse (nodeName (nodeId st)) clauses 0
           | _ => throw TypeError
           end ;;
           ret (Some (nodeName (nodeId st))))
            (withNode st (js "if " ++ text) p)
      | None => Throw TypeError
      end.

Lemma null_branches_generic get clauses parentNodeId st r st' :
  strictEq (get "type"%string) "IfStatement" = true ->
  get "clauses"%string = VArray clauses ->
  Forall arrayBodied clauses ->
  traverse (VObject get) parentNodeId st = Ok (r, st') ->
  exists newEdges,
    edges st' = edges st ++ newEdges
    /\ filter (isBranchFrom (nodeName (nodeId st))) newEdges
       = map (fun i => mkEdge (nodeName (nodeId st)) None
                              (Some (branchLabel i)))
             (seq 1 (length clauses - 1)).
Proof.
  intros Htype Hclauses Harr H.
  rewrite (traverse_if _ _ _ Htype), Hclauses in H.
  destruct (firstConditionText (VArray clauses)) as [text|]; [|discriminate].
  apply bind_ok in H. destruct H as ([] & st2 & Hloop & Hret).
  inversion Hret; subst r st2; clear Hret.
  assert (Hlt : nodeId st
                < nodeId (withNode st (js "if " ++ text)
                                   parentNodeId)) by (simpl; lia).
  destruct (ifClauses_branch_list (nodeId st) clauses Harr 0 _ _ Hlt Hloop)
    as (es & He & Hf).
  exists (parentLink parentNodeId (nodeName (nodeId st)) ++ es). split.
  - simpl in He. now rewrite He, app_assoc.
  - rewrite filter_app, parentLink_filter, app_nil_l, Hf.
    now rewrite filter_seq_positive.
Qed.

End NullBranches.

Lemma ltm_array_null items p st r st' :
  Ltm.traverseNode (VArray items) p st = Ok (r, st') -> r = None.
Proof.
  simpl. intros H. apply bind_ok in H.
  destruct H as (u & st1 & _ & H). now inversion H.
Qed.

Lemma part000_array_null items p st r st' :
  Part000.traverseNode (VArray items) p st = Ok (r, st') -> r = None.
Proof.
  simpl. intros H. apply bind_ok in H.
  destruct H as (u & st1 & _ & H). now inversion H.
Qed.

(** X14. For an [IfStatement] whose clauses have array bodies, as the
    parser builds them, the branch edges are exactly these, in both
    variants: one edge for each clause of index 1 and more, from the
    if-node to [null], labelled [No] for index 1 and [Else] after. *)
Theorem branch_edges_have_null_targets get clauses parentNodeId st r st' :
  strictEq (get "type"%string) "IfStatement" = true ->
  get "clauses"%string = VArray clauses ->
  Forall arrayBodied clauses ->
  Ltm.traverseNode (VObject get) parentNodeId st = Ok (r, st')
  \/ Part000.traverseNode (VObject get) parentNodeId st = Ok (r, st') ->
  exists newEdges,
    edges st' = edges st ++ newEdges
    /\ filter (isBranchFrom (nodeName (nodeId st))) newEdges
       = map (fun i => mkEdge (nodeName (nodeId st)) None
                              (Some (branchLabel i)))
             (seq 1 (length clauses - 1)).
Proof.
  intros Htype Hclauses Harr [H|H].
  - exact (null_branches_generic Ltm.traverseNode ltm_traverse_grows
             ltm_array_null ltm_if_eq _ _ _ _ _ _ Htype Hclauses Harr H).
  - exact (null_branches_generic Part000.traverseNode part000_traverse_grows
             part000_array_null part000_if_eq _ _ _ _ _ _ Htype Hclauses
             Harr H).
Qed.

Lemma branch_edges_have_null_targets_witness :
  exists newEdges,
    [mkEdge (nodeName 0) (Some (nodeName 1)) None;
     mkEdge (nodeName 0) (Some (nodeName 2)) None;
     mkEdge (nodeName 0) None (Some (js "No"));
     mkEdge (nodeName 0) (Some (nodeName 3)) None;
     mkEdge (nodeName 0) None (Some (js "Else"))] = [] ++ newEdges
    /\ filter (isBranchFrom (nodeName 0)) newEdges
       = [mkEdge (nodeName 0) None (Some (js "No"));
          mkEdge (nodeName 0) None (Some (js "Else"))].
Proof.
  refine (branch_edges_have_null_targets
            (lookup [("type", str "IfStatement");
                     ("clauses", VArray _)]%string)
            _ None initialState _ _ eq_refl eq_refl _
            (or_introl three_clauses_run)).
  repeat constructor; eexists; eexists; split; reflexivity.
Defined.

(** ** Statements below their parent *)

Lemma sources_ret {A} k al (Q : A -> Prop) a : Q a -> sources k al Q (ret a).
Proof.
  intros HQ st a' st' _ H. inversion H; subst. repeat split; auto.
  exists []. now rewrite app_nil_r.
Qed.

Lemma sources_throw {A} k al (Q : A -> Prop) e : sources k al Q (throw e).
Proof. intros st a st' _ H. discriminate. Qed.

Lemma sources_bind {A B} k al (Q1 : A -> Prop) (Q2 : B -> Prop) m f :
  sources k al Q1 m -> (forall a, Q1 a -> sources k al Q2 (f a)) ->
  sources k al Q2 (bind m f).
Proof.
  intros Hm Hf st b st' Hk H. apply bind_ok in H.
  destruct H as (a & st1 & H1 & H2).
  destruct (Hm _ _ _ Hk H1) as (HQ1 & Hn1 & es1 & He1 & Hs1).
  destruct (Hf a HQ1 st1 b st') as (HQ2 & Hn2 & es2 & He2 & Hs2);
    [lia | exact H2 |].
  repeat split; [exact HQ2 | lia |].
  exists (es1 ++ es2). split.
  - now rewrite He2, He1, app_assoc.
  - apply Forall_app. auto.
Qed.

Lemma sources_bind_throw {A B} k al e (f : A -> M B) Q :
  sources k al Q (bind (throw e) f).
Proof. intros st a st' _ H. discriminate. Qed.

Lemma sources_pure {A} k al (m : M A) :
  pure m -> sources k al (fun _ => True) m.
Proof.
  intros Hp st a st' _ H. apply Hp in H. subst. repeat split; auto.
  exists []. now rewrite app_nil_r.
Qed.

Lemma sources_createNode k al label :
  sources k al (fun i => exists j, k <= j /\ i = nodeName j)
          (createNode label).
Proof.
  intros st i st' Hk H. unfold createNode in H.
  destruct label; try discriminate. inversion H; subst; clear H.
  simpl. repeat split; [eauto | lia |].
  exists []. now rewrite app_nil_r.
Qed.

Lemma sources_pushEdge k al e :
  sourcedFrom k al e -> sources k al (fun _ => True) (pushEdge e).
Proof.
  intros He st a st' _ H. inversion H; subst; clear H. simpl.
  repeat split; auto. exists [e]. auto.
Qed.

Lemma sources_linkParent k al p i :
  (al = p \/ exists j, k <= j /\ p = Some (nodeName j)) ->
  sources k al (fun _ => True) (linkParent p i).
Proof.
  intros Hp. destruct p as [[|c p]|]; simpl;
    try (apply sources_ret; exact I).
  apply sources_pushEdge. destruct Hp as [->|(j & Hj & E)].
  - now left.
  - right. exists j. split; [exact Hj|]. simpl. now inversion E.
Qed.

Lemma sources_forEach_in {A} k al (f : A -> nat -> M unit) l :
  (forall x, In x l -> forall i, sources k al (fun _ => True) (f x i)) ->
  forall i, sources k al (fun _ => True) (forEach f l i).
Proof.
  induction l as [|x rest IH]; intros Hf i.
  - apply sources_ret. exact I.
  - rewrite forEach_cons. eapply sources_bind; [apply Hf; now left|].
    intros _ _. apply IH. intros y Hy. apply Hf. now right.
Qed.

(** A traversal below a node created at or after the [k]-th appends only
    edges that any [allowed] admits. *)
Lemma sources_below_new {A} k al j (Q : A -> Prop) m :
  k <= j -> sources k (Some (nodeName j)) Q m -> sources k al Q m.
Proof.
  intros Hj Hm st a st' Hk H.
  destruct (Hm _ _ _ Hk H) as (HQ & Hn & es & He & Hs).
  repeat split; auto. exists es. split; [exact He|].
  eapply Forall_impl; [|exact Hs]. intros e [E|E]; right; [|exact E].
  exists j. split; [exact Hj|]. now inversion E.
Qed.

Ltac new_source :=
  match goal with
  | |- sourcedFrom _ _ (mkEdge (nodeName ?j) _ _) =>
      right; exists j; split; [assumption | reflexivity]
  end.

Ltac sources_step IH :=
  match goal with
  | |- sources _ _ _ (bind (createNode _) _) =>
      eapply sources_bind;
        [apply sources_createNode | intros ? (? & ? & ->)]
  | |- sources _ _ _ (bind (linkParent _ _) _) =>
      eapply sources_bind;
        [apply sources_linkParent; first [now left | right; eauto]
        | intros ? _]
  | |- sources _ _ _ (bind (pushEdge _) _) =>
      eapply sources_bind;
        [apply sources_pushEdge; new_source | intros ? _]
  | |- sources ?k ?al _ (bind (Ltm.traverseNode _ ?p) _) =>
      eapply sources_bind;
        [first [ apply IH; solve [eauto with desc_db]
               | eapply sources_below_new;
                   [eassumption | apply IH; solve [eauto with desc_db]] ]
        | intros ? _]
  | |- sources ?k ?al _ (bind (Part000.traverseNode _ ?p) _) =>
      eapply sources_bind;
        [first [ apply IH; solve [eauto with desc_db]
               | eapply sources_below_new;
                   [eassumption | apply IH; solve [eauto with desc_db]] ]
        | intros ? _]
  | |- sources _ _ _ (bind (forEach _ _ _) _) =>
      eapply sources_bind;
        [apply sources_forEach_in; intros ? ? ? | intros ? _]
  | |- sources _ _ _ (bind (match ?v with _ => _ end) _) =>
      destruct v eqn:?
  | |- sources _ _ _ (bind (if ?c then _ else _) _) => destruct c eqn:?
  | |- sources _ _ _ (bind (throw _) _) => apply sources_bind_throw
  | |- sources _ _ _ (bind _ _) =>
      eapply sources_bind;
        [apply sources_pure; solve [auto 10 with pure_db] | intros ? _]
  | |- sources _ _ _ (if ?c then _ else _) => destruct c eqn:?
  | |- sources _ _ _ (match ?v with _ => _ end) => destruct v eqn:?
  | |- sources _ _ _ (ret _) => apply sources_ret; exact I
  | |- sources _ _ _ (throw _) => apply sources_throw
  | |- sources _ _ _ (pushEdge _) =>
      apply sources_pushEdge; new_source
  end.

Lemma ltm_traverse_sources node :
  forall parentNodeId k,
    sources k parentNodeId (fun _ => True)
            (Ltm.traverseNode node parentNodeId).
Proof.
  induction node as [node IH] using (well_founded_induction descendant_wf).
  intros p k. destruct node as [| | s | items | get]; simpl;
    repeat sources_step IH.
Qed.

Lemma part000_traverse_sources node :
  forall parentNodeId k,
    sources k parentNodeId (fun _ => True)
            (Part000.traverseNode node parentNodeId).
Proof.
  induction node as [node IH] using (well_founded_induction descendant_wf).
  intros p k. destruct node as [| | s | items | get]; simpl;
    repeat sources_step IH.
Qed.

Lemma hung_pure_bind {A} p (m : M A) f :
  pure m -> (forall a, hung p (f a)) -> hung p (bind m f).
Proof.
  intros Hp Hf st r st' H. apply bind_ok in H.
  destruct H as (a & st1 & H1 & H2). apply Hp in H1. subst st1.
  eapply Hf, H2.
Qed.

Lemma hung_create_link label p (k : jsstring -> M (option jsstring)) :
  (forall j, j <= j -> sources j None (fun _ => True) (k (nodeName j))) ->
  hung p (bind (createNode label)
               (fun i => bind (linkParent p i) (fun _ => k i))).
Proof.
  intros Hk st r st' H.
  destruct label as [| |s| |]; try discriminate.
  rewrite create_link_eq in H.
  assert (Hle : nodeId st <= nodeId (withNode st s p)) by (simpl; lia).
  destruct (Hk (nodeId st) (le_n _) _ _ _ Hle H)
    as (_ & Hn & es & He & Hs).
  simpl in Hn, He. split; [lia|].
  exists es. split; [now rewrite He, app_assoc | exact Hs].
Qed.

Ltac hung_step L :=
  match goal with
  | |- hung _ (bind (createNode _) _) =>
      apply hung_create_link; intros ? ?; repeat sources_step L
  | |- hung _ (bind (if ?c then _ else _) _) => destruct c eqn:?
  | |- hung _ (bind _ _) =>
      apply hung_pure_bind; [solve [auto 10 with pure_db] | intros ?]
  end.

Lemma ltm_statement_hung get p :
  strictEq (get "type"%string) "Chunk" = false ->
  hung p (Ltm.traverseNode (VObject get) p).
Proof.
  intros Hchunk. cbn [Ltm.traverseNode]. rewrite Hchunk.
  repeat match goal with
         | |- hung _ (if ?c then _ else _) => destruct c eqn:?
         end;
    repeat hung_step ltm_traverse_sources.
Qed.

Lemma part000_statement_hung get p :
  strictEq (get "type"%string) "Chunk" = false ->
  hung p (Part000.traverseNode (VObject get) p).
Proof.
  intros Hchunk. cbn [Part000.traverseNode]. rewrite Hchunk.
  repeat match goal with
         | |- hung _ (if ?c then _ else _) => destruct c eqn:?
         end;
    repeat hung_step part000_traverse_sources.
Qed.

Lemma parentLink_nodeName j i :
  parentLink (Some (nodeName j)) i = [mkEdge (nodeName j) (Some i) None].
Proof. reflexivity. Qed.

Lemma new_sources_filter j0 k more :
  j0 < k -> Forall (sourcedFrom k None) more ->
  filter (fun e => jsstring_eqb (from e) (nodeName j0)) more = [].
Proof.
  intros Hj. induction 1 as [|e more He _ IH]; [reflexivity|].
  simpl. rewrite IH.
  destruct (jsstring_eqb (from e) (nodeName j0)) eqn:E; [|reflexivity].
  apply jsstring_eqb_eq in E. destruct He as [He|(j & Hk & He)].
  - discriminate.
  - rewrite He in E. apply nodeName_injective in E. lia.
Qed.

Lemma ltm_statement_rooted get p :
  strictEq (get "type"%string) "Chunk" = false ->
  rooted p (Ltm.traverseNode (VObject get) p).
Proof.
  intros Hchunk. cbn [Ltm.traverseNode]. rewrite Hchunk.
  repeat match goal with
         | |- rooted _ (if ?c then _ else _) => destruct c eqn:?
         end;
    repeat rooted_step ltm_traverse_grows.
Qed.

Lemma part000_statement_rooted get p :
  strictEq (get "type"%string) "Chunk" = false ->
  rooted p (Part000.traverseNode (VObject get) p).
Proof.
  intros Hchunk. cbn [Part000.traverseNode]. rewrite Hchunk.
  repeat match goal with
         | |- rooted _ (if ?c then _ else _) => destruct c eqn:?
         end;
    repeat rooted_step part000_traverse_grows.
Qed.

Section Hanging.

Variable traverse : value -> option jsstring -> M (option jsstring).

Hypothesis traverse_array :
  forall items p,
    traverse (VArray items) p
    = (forEach (fun childNode _ => traverse childNode p ;; ret tt) items 0 ;;
       ret None).

Hypothesis statement_hung :
  forall get p,
    strictEq (get "type"%string) "Chunk" = false ->
    hung p (traverse (VObject get) p).

Hypothesis statement_rooted :
  forall get p,
    strictEq (get "type"%string) "Chunk" = false ->
    rooted p (traverse (VObject get) p).

Hypothesis traverse_framed : forall node p, framed (traverse node p).

Hypothesis traverse_links :
  forall node p b,
    parentBelow b p ->
    links b (traverse node p) (fun r b' => resultBelow b' r).

Lemma forEach_hang j0 items :
  Forall statementObject items ->
  forall i st st',
    j0 < nodeId st ->
    forEach (fun childNode (_ : nat) =>
               traverse childNode (Some (nodeName j0)) ;; ret tt)
            items i st = Ok (tt, st') ->
    exists newEdges roots,
      edges st' = edges st ++ newEdges
      /\ firstNodes traverse (Some (nodeName j0)) items st roots st'
      /\ filter (fun e => jsstring_eqb (from e) (nodeName j0)) newEdges
         = map (fun t => mkEdge (nodeName j0) (Some t) None) roots
      /\ length roots = length items
      /\ Forall (fun t => exists j, nodeId st <= j /\ t = nodeName j) roots
      /\ Forall (sourcedFrom (nodeId st) (Some (nodeName j0))) newEdges.
Proof.
  induction 1 as [|x rest Hx _ IH]; intros i st st' Hj H.
  - inversion H; subst. exists [], []. rewrite app_nil_r.
    repeat split; auto. constructor.
  - rewrite forEach_cons in H. apply bind_ok in H.
    destruct H as ([] & st2 & Hstep & Hrest).
    apply bind_ok in Hstep. destruct Hstep as (r & st1 & Htrav & Hret).
    inversion Hret; subst st2; clear Hret.
    destruct Hx as (get & -> & Hchunk).
    destruct (statement_hung get _ Hchunk _ _ _ Htrav)
      as (Hn & more & He & Hs).
    destruct (statement_rooted get _ Hchunk _ _ _ Htrav)
      as (-> & l & others & _ & Hnodes & _).
    rewrite parentLink_nodeName in He.
    apply IH in Hrest; [|lia].
    destruct Hrest as (es & roots & He' & Hfirst & Hf & Hl & Hr & Hsrc).
    exists ((mkEdge (nodeName j0) (Some (nodeName (nodeId st))) None :: more)
            ++ es), (nodeName (nodeId st) :: roots).
    repeat split.
    + rewrite He', He. simpl. now rewrite <- !app_assoc.
    + econstructor; eauto.
    + rewrite filter_app. cbn [filter from]. rewrite jsstring_eqb_refl.
      rewrite (new_sources_filter j0 (nodeId st) more Hj Hs), Hf.
      reflexivity.
    + simpl. now rewrite Hl.
    + constructor.
      * exists (nodeId st). auto.
      * eapply Forall_impl; [|exact Hr]. intros t (j & Hjj & ->).
        exists j. split; [lia|reflexivity].
    + apply Forall_app. split.
      * constructor; [now left|].
        eapply Forall_impl; [|exact Hs]. intros e [E|E];
          [discriminate | now right].
      * eapply Forall_impl; [|exact Hsrc]. intros e [E|(j & Hjj & E)];
          [now left|]. right. exists j. split; [lia | exact E].
Qed.

Lemma new_edges_below node p st r st' newEdges :
  parentBelow (nodeId st) p ->
  traverse node p st = Ok (r, st') ->
  edges st' = edges st ++ newEdges ->
  nodeId st <= nodeId st'
  /\ Forall (fun e => idBelow (nodeId st') (from e)) newEdges.
Proof.
  destruct st as [ns es n]. simpl. intros Hp H He.
  pose proof (traverse_framed node p ns es (mkState [] [] n)) as Hf.
  unfold prepended in Hf. simpl in Hf. rewrite !app_nil_r in Hf.
  rewrite Hf in H.
  destruct (traverse node p (mkState [] [] n)) as [[r0 st0]|e] eqn:E;
    [|discriminate].
  inversion H; subst r st'; clear H. simpl in He |- *.
  apply app_inv_head in He. subst newEdges.
  destruct (traverse_links node p n Hp (mkState [] [] n) r0 st0
              (le_n n) (Forall_nil _) E)
    as (HL & b' & Hb & Hb' & _).
  simpl in Hb'. split; [lia|].
  eapply Forall_impl; [|exact HL]. intros e [Hfrom _]. exact Hfrom.
Qed.

Lemma statements_hang_generic j0 items st r st' :
  Forall statementObject items ->
  j0 < nodeId st ->
  traverse (VArray items) (Some (nodeName j0)) st = Ok (r, st') ->
  exists newEdges roots,
    edges st' = edges st ++ newEdges
    /\ firstNodes traverse (Some (nodeName j0)) items st roots st'
    /\ filter (fun e => jsstring_eqb (from e) (nodeName j0)) newEdges
       = map (fun t => mkEdge (nodeName j0) (Some t) None) roots
    /\ length roots = length items
    /\ Forall (fun t => exists j, nodeId st <= j /\ t = nodeName j) roots
    /\ Forall (leavesParentOrNew (nodeName j0) (nodeId st) (nodeId st'))
              newEdges.
Proof.
  intros Hitems Hj H. pose proof H as Hrun. rewrite traverse_array in H.
  apply bind_ok in H. destruct H as ([] & st1 & Hloop & Hret).
  inversion Hret; subst r st1; clear Hret.
  destruct (forEach_hang j0 items Hitems 0 st st' Hj Hloop)
    as (newEdges & roots & He & Hfirst & Hf & Hl & Hr & Hsrc).
  exists newEdges, roots. repeat split; auto.
  assert (Hp : parentBelow (nodeId st) (Some (nodeName j0))).
  { simpl. exists j0. split; [exact Hj | reflexivity]. }
  destruct (new_edges_below _ _ _ _ _ _ Hp Hrun He) as [_ Hbelow].
  pose proof (Forall_and Hsrc Hbelow) as Hboth.
  eapply Forall_impl; [|exact Hboth].
  intros e [[E|(j & Hjj & E)] (j' & Hj' & E')].
  - left. now inversion E.
  - right. exists j. repeat split; auto.
    rewrite E in E'. apply nodeName_injective in E'. lia.
Qed.

End Hanging.

(** X15. The statements of a body hang below its node, in both variants:
    when an array of node objects, none a [Chunk], is traversed with the
    id of an existing node as parent, the statements are traversed in
    order, each returning the id of the first node it appended; the edges
    appended that leave the parent are exactly one link, without label,
    to that first node of each statement, in order; and every other
    appended edge leaves a node created by the traversal. *)
Theorem statements_hang_below_parent traverse j0 items st r st' :
  traverse = Ltm.traverseNode \/ traverse = Part000.traverseNode ->
  Forall statementObject items ->
  j0 < nodeId st ->
  traverse (VArray items) (Some (nodeName j0)) st = Ok (r, st') ->
  exists newEdges roots,
    edges st' = edges st ++ newEdges
    /\ firstNodes traverse (Some (nodeName j0)) items st roots st'
    /\ filter (fun e => jsstring_eqb (from e) (nodeName j0)) newEdges
       = map (fun t => mkEdge (nodeName j0) (Some t) None) roots
    /\ length roots = length items
    /\ Forall (fun t => exists j, nodeId st <= j /\ t = nodeName j) roots
    /\ Forall (leavesParentOrNew (nodeName j0) (nodeId st) (nodeId st'))
              newEdges.
Proof.
  intros [->| ->] Hitems Hj H.
  - exact (statements_hang_generic Ltm.traverseNode
             (fun _ _ => eq_refl) ltm_statement_hung ltm_statement_rooted
             ltm_traverse_framed ltm_traverse_links
             j0 items st r st' Hitems Hj H).
  - exact (statements_hang_generic Part000.traverseNode
             (fun _ _ => eq_refl) part000_statement_hung
             part000_statement_rooted part000_traverse_framed
             part000_traverse_links
             j0 items st r st' Hitems Hj H).
Qed.

Lemma statements_hang_below_parent_witness :
  let items := [returnStatement [numericLiteral "1"];
                returnStatement [numericLiteral "2"]] in
  let st' := mkState [mkNode (nodeName 1) (js "return 1");
                      mkNode (nodeName 2) (js "return 2")]
                     [mkEdge (nodeName 0) (Some (nodeName 1)) None;
                      mkEdge (nodeName 0) (Some (nodeName 2)) None] 3 in
  Ltm.traverseNode (VArray items) (Some (nodeName 0)) (mkState [] [] 1)
  = Ok (None, st')
  /\ exists newEdges roots,
       edges st' = [] ++ newEdges
       /\ firstNodes Ltm.traverseNode (Some (nodeName 0)) items
                     (mkState [] [] 1) roots st'
       /\ filter (fun e => jsstring_eqb (from e) (nodeName 0)) newEdges
          = map (fun t => mkEdge (nodeName 0) (Some t) None) roots
       /\ length roots = 2
       /\ Forall (fun t => exists j, 1 <= j /\ t = nodeName j) roots
       /\ Forall (leavesParentOrNew (nodeName 0) 1 3) newEdges.
Proof.
  intros items st'.
  assert (Hrun : Ltm.traverseNode (VArray items) (Some (nodeName 0))
                   (mkState [] [] 1) = Ok (None, st'))
    by (vm_compute; reflexivity).
  split; [exact Hrun|].
  refine (statements_hang_below_parent Ltm.traverseNode 0 items
            (mkState [] [] 1) None st' (or_introl eq_refl) _ _ Hrun).
  - repeat constructor; eexists; split; reflexivity.
  - simpl. lia.
Defined.
